(** * Raster value extractor: the column-name resolver and the sampling pipeline

    A shallow embedding of [Tool.py] (class [RasterValueExtractor], method
    [processAlgorithm]) and the properties of its naming helpers, of its
    per-raster loops and of its fatal/recoverable error paths.

    Conventions of the embedding:
    - Python [str] is [string], each character a code point below 256;
      Python [int] counters are [N] or [nat];
      the [used_names] set is a [gset string]; the [rename_map] dict is a
      [gmap Z string];
    - the closure state ([used_names]), the working [grid] reference and the
      feedback channel are threaded explicitly;
    - the QGIS primitives the script calls ([processing.run], layer and
      provider methods, [os.path]) are fields of a capability record
      [Host]; a call that may raise returns an [outcome];
    - extents and pixel sizes are Python floats, that is IEEE 754 binary64
      numbers with their rounding, infinities and NaN, and the arithmetic
      on them raises what Python raises; the buffer distance, which the
      script only compares with 0 and negates, is a rational ([Q]). *)

From stdpp Require Import gmap strings pretty list sorting.
From Stdlib Require Import Ascii QArith Qround Lqa SpecFloat.

(** ** The used-name registry and [unique_name] (Tool.py, lines 304-314) *)

Module Names.

(** [f'{base}_{k}'] *)
Definition candidate (base : string) (k : N) : string :=
  base +:+ "_" +:+ pretty k.

(** The [while n in used_names] loop. [n] and [k] are the loop variables;
    [fuel] bounds the number of iterations still allowed, and [None] means
    the bound was hit while [n] was still a used name. *)
Fixpoint unique_loop (fuel : nat) (used : gset string) (base n : string) (k : N)
  : option string :=
  if decide (n ∈ used) then
    match fuel with
    | O => None
    | S fuel' => unique_loop fuel' used base (candidate base k) (k + 1)
    end
  else Some n.

(** [unique_name(base)]: the returned name together with the registry after
    [used_names.add(n)].  The loop is run with [size used + 1] iterations
    allowed, which [unique_loop_total] shows is always enough, so the
    [default] is never taken. *)
Definition unique_name (base : string) (used : gset string)
  : string * gset string :=
  let n := default base (unique_loop (S (size used)) used base base 1) in
  (n, {[ n ]} ∪ used).
Global Arguments unique_name : simpl never.

(** A run of calls [unique_name(b)] for [b] in [bases], in order, against
    one registry: the returned names and the final registry. *)
Fixpoint unique_names (bases : list string) (used : gset string)
  : list string * gset string :=
  match bases with
  | [] => ([], used)
  | b :: bs =>
      let '(n, used1) := unique_name b used in
      let '(ns, used2) := unique_names bs used1 in
      (n :: ns, used2)
  end.

(** What a call may return, in the words of the design: the base itself when
    it is unused, else the base followed by [_k] for the least positive [k]
    whose candidate is unused. *)
Definition first_free (used : gset string) (base n : string) : Prop :=
  ((base ∉ used) ∧ n = base) ∨
  (base ∈ used ∧
   ∃ k : N, (1 ≤ k)%N ∧ n = candidate base k ∧ (n ∉ used) ∧
            ∀ j : N, (1 ≤ j < k)%N → candidate base j ∈ used).

End Names.

(** ** [sort_by_suffix] (Tool.py, lines 316-321) *)

Module Suffix.

(** A name is a Python [str] whose characters are code points below 256,
    one [ascii] per character; names with other characters cannot be
    written down here and are outside of what is proved.  Below 256 the
    class [\d] of a [str] pattern is exactly ['0'..'9'], with the values
    [int] gives them. *)
Definition digit_value (c : ascii) : option N :=
  let n := N_of_ascii c in
  if (48 <=? n)%N && (n <=? 57)%N then Some (n - 48)%N else None.

Definition is_digit (c : ascii) : bool :=
  match digit_value c with Some _ => true | None => false end.

Definition newline : ascii := "010"%char.

(** The longest run of digits at the front of [s], and what follows it:
    what a greedy [\d+] consumes. *)
Fixpoint span_digits (s : string) : string * string :=
  match s with
  | String c s' =>
      if is_digit c then
        let '(d, rest) := span_digits s' in (String c d, rest)
      else ("", s)
  | "" => ("", "")
  end.

(** [$] without [re.MULTILINE]: the end of the string, or just before a
    newline that is the last character. *)
Definition at_dollar (rest : string) : bool :=
  match rest with
  | "" => true
  | String c "" => Ascii.eqb c newline
  | _ => false
  end.

(** The pattern [(\d+)$] tried at the start of [s]: group 1 on success.
    Giving up digits of the greedy run cannot help, since the next
    character would then be a digit and [$] would fail. *)
Definition match_here (s : string) : option string :=
  let '(d, rest) := span_digits s in
  match d with
  | "" => None
  | _ => if at_dollar rest then Some d else None
  end.

(** [re.search(r'(\d+)$', n)]: the match at the leftmost start position,
    as [m.group(1)]. *)
Fixpoint re_search (s : string) : option string :=
  match match_here s with
  | Some d => Some d
  | None =>
      match s with
      | "" => None
      | String _ s' => re_search s'
      end
  end.

(** [int(d)] on a string of decimal digits (a character that is not a
    digit counts as 0; [re_search] never yields one). *)
Fixpoint int_of_digits_from (acc : N) (d : string) : N :=
  match d with
  | "" => acc
  | String c d' =>
      int_of_digits_from (10 * acc + default 0%N (digit_value c))%N d'
  end.

Definition int_of_digits (d : string) : N := int_of_digits_from 0 d.

(** [keyfunc(n)] *)
Definition keyfunc (n : string) : N :=
  match re_search n with
  | Some d => int_of_digits d
  | None => 1%N
  end.

(** [sorted(names, key=key)]: Python's sort is stable, and a stable sort is
    determined by its input, so it is modelled by insertion from the right,
    where an element goes in front of the first element whose key is not
    smaller. *)
Fixpoint insert_by {A : Type} (key : A → N) (x : A) (l : list A) : list A :=
  match l with
  | [] => [x]
  | y :: l' =>
      if (key x <=? key y)%N then x :: y :: l' else y :: insert_by key x l'
  end.

Fixpoint sorted_by {A : Type} (key : A → N) (l : list A) : list A :=
  match l with
  | [] => []
  | x :: l' => insert_by key x (sorted_by key l')
  end.

Definition sort_by_suffix (names : list string) : list string :=
  sorted_by keyfunc names.

(** The order a sort by [key] establishes. *)
Definition key_le {A : Type} (key : A → N) (a b : A) : Prop :=
  (key a ≤ key b)%N.

(** The design's wording of the key, for comparison with [keyfunc]: the
    value of the run of digits at the very end of the string, and 1 for a
    string that does not end in a digit. *)
Fixpoint trailing_digits (s : string) : string :=
  match s with
  | "" => ""
  | String c s' =>
      let t := trailing_digits s' in
      if is_digit c && bool_decide (t = s') then String c t else t
  end.

Definition suffix_value (s : string) : N :=
  match trailing_digits s with
  | "" => 1%N
  | d => int_of_digits d
  end.

Fixpoint all_digits (s : string) : bool :=
  match s with
  | "" => true
  | String c s' => is_digit c && all_digits s'
  end.

(** Every character of [s] is an ASCII character. *)
Fixpoint ascii_only (s : string) : bool :=
  match s with
  | "" => true
  | String c s' => (N_of_ascii c <? 128)%N && ascii_only s'
  end.

(** The longest run of digits [int] converts before it raises
    [ValueError]: the default of [sys.int_max_str_digits], for the Pythons
    that have the limit. *)
Definition int_max_str_digits : N := 4300.

(** [s] without its last character when that is a newline. *)
Fixpoint drop_final_newline (s : string) : string :=
  match s with
  | "" => ""
  | String c s' =>
      match s' with
      | "" => if Ascii.eqb c newline then "" else s
      | _ => String c (drop_final_newline s')
      end
  end.

End Suffix.

(** ** Python's [float] and [int] arithmetic, as the script uses it *)

Module PyFloat.

(** A Python [float] is an IEEE 754 binary64 number: 53 bits of precision,
    exponents below 1024, every operation rounded to the nearest value
    (ties to even). *)
Definition prec : Z := 53.
Definition emax : Z := 1024.
Definition float : Type := spec_float.

(** An expression has a value or raises a built-in exception. *)
Inductive computed (A : Type) : Type :=
  | Value (a : A)
  | Exception (exn : string).
Arguments Value {A} a.
Arguments Exception {A} exn.

#[global] Instance computed_bind : MBind computed := λ A B f c,
  match c with
  | Value a => f a
  | Exception exn => Exception exn
  end.

(** [x + y], [x - y], [x * y] on two floats, and the quotient of a
    division that does not raise: these overflow to an infinity. *)
Definition fadd : float → float → float := SFadd prec emax.
Definition fsub : float → float → float := SFsub prec emax.
Definition fmul : float → float → float := SFmul prec emax.

Definition is_zero (x : float) : bool :=
  match x with
  | S754_zero _ => true
  | _ => false
  end.

Definition fdiv : float → float → float := SFdiv prec emax.

(** [x / y] on two floats: a zero divisor of either sign raises. *)
Definition truediv (x y : float) : computed float :=
  if is_zero y then Exception "ZeroDivisionError" else Value (fdiv x y).

(** [int(x)]: truncation towards zero; an infinity and a NaN raise. *)
Definition py_int (x : float) : computed Z :=
  match x with
  | S754_zero _ => Value 0%Z
  | S754_infinity _ => Exception "OverflowError"
  | S754_nan => Exception "ValueError"
  | S754_finite s m e =>
      let magnitude :=
        match e with
        | Z0 => Z.pos m
        | Z.pos p => (Z.pos m * 2 ^ Z.pos p)%Z
        | Z.neg p => (Z.pos m / 2 ^ Z.pos p)%Z
        end in
      Value (if s then (- magnitude)%Z else magnitude)
  end.

(** The conversion of an [int] operand that meets a float: the nearest
    float, and [OverflowError] when the integer is too large for one. *)
Definition of_int (n : Z) : computed float :=
  match binary_normalize prec emax n 0 false with
  | S754_infinity _ => Exception "OverflowError"
  | x => Value x
  end.

(** [n * x] and [x / n] with an [int] [n]. *)
Definition int_mul (n : Z) (x : float) : computed float :=
  f ← of_int n; Value (fmul f x).

Definition div_int (x : float) (n : Z) : computed float :=
  d ← of_int n; truediv x d.

(** The real number a finite float stands for. *)
Definition to_Q (x : float) : option Q :=
  match x with
  | S754_zero _ => Some 0%Q
  | S754_finite s m e =>
      let signed := if s then Z.neg m else Z.pos m in
      Some match e with
           | Z0 => inject_Z signed
           | Z.pos p => inject_Z (signed * 2 ^ Z.pos p)
           | Z.neg p => Qmake signed (2 ^ p)%positive
           end
  | _ => None
  end.

(** [x <= y] on two floats. *)
Definition fle (x y : float) : bool := SFleb x y.

(** The float of a small integer literal, for writing inputs down. *)
Definition literal (n : Z) : float := binary_normalize prec emax n 0 false.

End PyFloat.

(** ** The reference grid (Tool.py, lines 206-219) *)

Module Geometry.

Import PyFloat.

(** [QgsRectangle(xmin, ymin, xmax, ymax)]: the four numbers a rectangle is
    made of. *)
Record Extent : Type := QgsRectangle
  { xMinimum : float; yMinimum : float; xMaximum : float; yMaximum : float }.

(** What the script hands to [qgis:creategrid]: [EXTENT], [HSPACING],
    [VSPACING], with the two cell counts it computed on the way. *)
Record GridSpec : Type :=
  { n_x : Z; n_y : Z; grid_extent : Extent;
    hspacing : float; vspacing : float }.

(** [int(length / res) + 1] (lines 211-212) *)
Definition cell_count (length res : float) : computed Z :=
  q ← truediv length res; k ← py_int q; Value (k + 1)%Z.

(** [center - (n * res) / 2] (lines 214-215) *)
Definition lower_edge (center : float) (n : Z) (res : float)
  : computed float :=
  span ← int_mul n res; half ← div_int span 2; Value (fsub center half).

(** [lower + n * res] (lines 216-217) *)
Definition upper_edge (lower : float) (n : Z) (res : float)
  : computed float :=
  span ← int_mul n res; Value (fadd lower span).

(** Lines 211-219, statement by statement; the first exception raised is
    the one that leaves the method. *)
Definition reference_grid (center_x center_y width height res_x res_y : float)
  : computed GridSpec :=
  nx ← cell_count width res_x;
  ny ← cell_count height res_y;
  left ← lower_edge center_x nx res_x;
  bottom ← lower_edge center_y ny res_y;
  right ← upper_edge left nx res_x;
  top ← upper_edge bottom ny res_y;
  Value {| n_x := nx; n_y := ny;
           grid_extent := QgsRectangle left bottom right top;
           hspacing := res_x; vspacing := res_y |}.

(** The design's wording, for comparison with [n_x] and [n_y]: [n] cells
    of size [res] cover a length [len] when their total span reaches it. *)
Definition covers (n : Z) (res len : Q) : Prop :=
  (len <= inject_Z n * res)%Q.

Definition smallest_cover (n : Z) (res len : Q) : Prop :=
  covers n res len ∧ ∀ m : Z, covers m res len → (n ≤ m)%Z.

(** [inner] lies within [outer]. *)
Definition contains (outer inner : Extent) : bool :=
  fle (xMinimum outer) (xMinimum inner) && fle (xMaximum inner) (xMaximum outer)
  && fle (yMinimum outer) (yMinimum inner) && fle (yMaximum inner) (yMaximum outer).

End Geometry.

(** ** The pipeline (Tool.py, lines 122-395) *)

Module Pipeline.

Import Names Suffix PyFloat Geometry.

(** A call into the host that either returns or raises [Exception(e)]. *)
Inductive outcome (A : Type) : Type :=
  | Returns (a : A)
  | Raises (e : string).
Arguments Returns {A} a.
Arguments Raises {A} e.

(** What the run does that an observer can see: feedback messages,
    [processing.run] invocations by algorithm id, and the edit-session
    calls on the grid. *)
Inductive event : Type :=
  | Info (msg : string)
  | Warning (msg : string)
  | Run (alg : string)
  | StartEditing
  | RenameAttributes (rename_map : gmap Z string)
  | UpdateFields
  | RollBack
  | CommitChanges.

(** The collaborators of the script.  Layers are opaque values; a raster
    layer is addressed by its path.  [feedback.setProgress] and the
    creation of the scratch directory have no bearing on control flow and
    are left out; [feedback.isCanceled()] is polled once at the top of each
    loop iteration and is indexed by the loop and the iteration. *)
Class Host : Type := {
  Layer : Type;
  Crs : Type;
  layer_isValid : Layer → bool;
  (** [[f.name() for f in layer.fields()]] *)
  field_names : Layer → list string;
  (** [QgsRasterLayer(path, 'raster_ref')] and its accessors *)
  raster_isValid : string → bool;
  raster_extent : string → Extent;
  rasterUnitsPerPixelX : string → float;
  rasterUnitsPerPixelY : string → float;
  raster_crs : string → Crs;
  (** [extent.center().x()], [extent.center().y()], [extent.width()] and
      [extent.height()]: QGIS computes them, in floating point *)
  center_x : Extent → float;
  center_y : Extent → float;
  width : Extent → float;
  height : Extent → float;
  (** [os.path]: the scratch directory, [join],
      [splitext(basename(p))[0]] and [exists] *)
  temp_dir : string;
  path_join : string → string → string;
  path_stem : string → string;
  path_exists : string → bool;
  (** [processing.run(alg, ...)]; for the raster clip the value is
      [result.get('OUTPUT')], for the others [result['OUTPUT']] *)
  run_cliprasterbymasklayer : string → Layer → string → outcome (option string);
  run_creategrid : Extent → float → float → Crs → outcome Layer;
  run_buffer : Layer → Q → outcome Layer;
  run_clip : Layer → Layer → outcome Layer;
  run_rastersampling : Layer → string → string → outcome Layer;
  (** the edit session on the grid and the provider's rename, which
      yields the layer as the call left it and [ok] or an exception; the
      other calls of the session are taken to return *)
  startEditing : Layer → Layer;
  renameAttributes : Layer → gmap Z string → Layer * outcome bool;
  updateFields : Layer → Layer;
  rollBack : Layer → Layer;
  commitChanges : Layer → Layer;
  canceled_clipping : nat → bool;
  canceled_sampling : nat → bool;
}.

(** How the run ends: normally, with [QgsProcessingException(msg)], or with
    another uncaught exception. *)
Inductive result (A : Type) : Type :=
  | Done (a : A)
  | Fatal (log : list event) (msg : string)
  | Crash (log : list event) (exn : string).
Arguments Done {A} a.
Arguments Fatal {A} log msg.
Arguments Crash {A} log exn.

(** [QgsFields.indexOf(name)]: position of the first field of that name,
    [-1] when there is none. *)
Fixpoint indexOf (names : list string) (x : string) : Z :=
  match names with
  | [] => -1
  | y :: ys =>
      if decide (y = x) then 0
      else let r := indexOf ys x in
           if decide (r = -1)%Z then (-1)%Z else (1 + r)%Z
  end.

Section Script.

Context `{H : Host}.

Record Parameters : Type :=
  { polygon_layer : option Layer;
    (** each raster by its [raster_path] (line 160) *)
    raster_layers : list string;
    buffer_size : Q }.

(** *** Clipping the rasters (lines 151-184) *)

(** [result.get('OUTPUT') and os.path.exists(result['OUTPUT'])] *)
Definition clip_saved (out : option string) : option string :=
  match out with
  | Some p => if negb (String.eqb p "") && path_exists p then Some p else None
  | None => None
  end.

(** One pass through the body of the clipping loop. *)
Definition clip_one (polygon : Layer) (raster_path : string)
    (acc : list string * list event) : list string * list event :=
  let '(clipped_rasters, log) := acc in
  let base_name := path_stem raster_path in
  let output_clip := path_join temp_dir (base_name +:+ "_clip.tif") in
  let log1 := log ++ [Info ("Clipping raster: " +:+ base_name);
                      Run "gdal:cliprasterbymasklayer"] in
  match run_cliprasterbymasklayer raster_path polygon output_clip with
  | Returns out =>
      match clip_saved out with
      | Some p => (clipped_rasters ++ [p], log1)
      | None =>
          (clipped_rasters,
           log1 ++ [Warning ("Could not save clipped raster: " +:+ base_name)])
      end
  | Raises e =>
      (clipped_rasters,
       log1 ++ [Warning ("Error clipping " +:+ base_name +:+ ": " +:+ e)])
  end.

Fixpoint clip_loop (polygon : Layer) (i : nat) (rasters : list string)
    (acc : list string * list event) : list string * list event :=
  match rasters with
  | [] => acc
  | raster_path :: rest =>
      if canceled_clipping i then acc
      else clip_loop polygon (S i) rest (clip_one polygon raster_path acc)
  end.

(** *** The sampling mask (lines 249-271) *)

Definition select_mask (polygon : Layer) (buffer_size : Q)
  : Layer * list event :=
  if negb (Qle_bool buffer_size 0) then
    match run_buffer polygon (- buffer_size)%Q with
    | Returns buffered => (buffered, [Run "native:buffer"])
    | Raises e =>
        (polygon, [Run "native:buffer"; Warning ("Buffer failed: " +:+ e)])
    end
  else (polygon, []).

(** *** Column naming in the sampling loop (lines 299-302, 361-373) *)

(** [base_name_from_clip(path)]: [b[:-5] if b.endswith('_clip') else b] *)
Definition strip_clip (b : string) : string :=
  let n := String.length b in
  if String.eqb (String.substring (n - 5)%nat 5 b) "_clip"
  then String.substring 0 (n - 5)%nat b else b.

Definition base_name_from_clip (path : string) : string :=
  strip_clip (path_stem path).

(** [f'tmp{i}__'] *)
Definition tmp_prefix (i : nat) : string := "tmp" +:+ pretty i +:+ "__".

(** Lines 362-366: the fields that start with the prefix, and when there
    are none, the fields that were not there before. *)
Definition detect_new_fields (prefix : string) (fields_before all_names : list string)
  : list string :=
  match filter (λ n, String.prefix prefix n = true) all_names with
  | [] =>
      let before_set : gset string := list_to_set fields_before in
      filter (λ n, n ∉ before_set) all_names
  | new_fields => new_fields
  end.

(** [f'{final_base}_B{j+1}'] *)
Definition band_base (final_base : string) (j : nat) : string :=
  final_base +:+ "_B" +:+ pretty (j + 1)%nat.

(** Lines 370-373, with the registry threaded through the comprehension. *)
Definition resolve_final_names (final_base : string)
    (new_fields_sorted : list string) (used : gset string)
  : list string * gset string :=
  if decide (length new_fields_sorted ≤ 1)%nat then ([final_base], used)
  else unique_names
         (band_base final_base <$> seq 0 (length new_fields_sorted)) used.

(** Lines 377-383: the [rename_map] dict filled pair by pair. *)
Fixpoint build_rename_map (fields : list string)
    (pairs : list (string * string)) (rename_map : gmap Z string)
  : gmap Z string :=
  match pairs with
  | [] => rename_map
  | (old, new) :: rest =>
      if decide (old = new) then build_rename_map fields rest rename_map
      else
        let idx := indexOf fields old in
        if decide (idx ≠ -1)%Z
        then build_rename_map fields rest (<[idx := new]> rename_map)
        else build_rename_map fields rest rename_map
  end.

(** Lines 376-395: the [try] block that renames the temporary columns.
    The grid after it, and what it did. *)
Definition rename_fields (grid : Layer) (final_base : string)
    (new_fields_sorted final_names : list string) : Layer * list event :=
  let rename_map :=
    build_rename_map (field_names grid) (zip new_fields_sorted final_names) ∅ in
  if decide (rename_map = ∅) then (grid, [])
  else
    let editing := startEditing grid in
    match renameAttributes editing rename_map with
    | (renamed, Returns ok) =>
        let updated := updateFields renamed in
        if ok then
          (commitChanges updated,
           [StartEditing; RenameAttributes rename_map; UpdateFields;
            CommitChanges])
        else
          (rollBack updated,
           [StartEditing; RenameAttributes rename_map; UpdateFields; RollBack;
            Warning "Field renaming failed for one or more fields."])
    | (left_as, Raises e) =>
        (left_as,
         [StartEditing; RenameAttributes rename_map;
          Warning ("Error renaming fields for " +:+ final_base +:+ ": " +:+ e)])
    end.

(** *** The sampling loop (lines 330-395) *)

Record sstate : Type :=
  { grid : Layer; used_names : gset string; log : list event }.

(** One pass through the body of the sampling loop. *)
Definition sample_one (i : nat) (r_path : string) (st : sstate) : sstate :=
  let base := base_name_from_clip r_path in
  let '(final_base, used1) := unique_name base (used_names st) in
  let prefix := tmp_prefix i in
  let fields_before := field_names (grid st) in
  let log1 :=
    log st ++ [Info ("Extracting values from: " +:+ final_base);
               Run "qgis:rastersampling"] in
  match run_rastersampling (grid st) r_path prefix with
  | Raises e =>
      {| grid := grid st; used_names := used1;
         log := log1 ++ [Warning ("Error sampling " +:+ final_base +:+ ": " +:+ e)] |}
  | Returns sampled =>
      let all_names := field_names sampled in
      let new_fields := detect_new_fields prefix fields_before all_names in
      let new_fields_sorted := sort_by_suffix new_fields in
      let '(final_names, used2) :=
        resolve_final_names final_base new_fields_sorted used1 in
      let '(renamed, calls) :=
        rename_fields sampled final_base new_fields_sorted final_names in
      {| grid := renamed; used_names := used2; log := log1 ++ calls |}
  end.

Fixpoint sample_loop (i : nat) (clipped_rasters : list string) (st : sstate)
  : sstate :=
  match clipped_rasters with
  | [] => st
  | r_path :: rest =>
      if canceled_sampling i then st
      else sample_loop (S i) rest (sample_one i r_path st)
  end.

(** *** The grid of the reference raster (lines 197-219) *)

Definition grid_request (ref_path : string) : computed GridSpec :=
  let extent := raster_extent ref_path in
  let res_x := rasterUnitsPerPixelX ref_path in
  let res_y := rasterUnitsPerPixelY ref_path in
  reference_grid (center_x extent) (center_y extent)
    (width extent) (height extent) res_x res_y.

(** *** [processAlgorithm] up to the end of the sampling loop
    (lines 128-395).  The rest of the method writes the two files and
    raises no [QgsProcessingException]. *)
Definition processAlgorithm (p : Parameters) : result sstate :=
  match polygon_layer p with
  | None => Fatal [] "Error: invalid field polygon."
  | Some polygon =>
  if negb (layer_isValid polygon) then Fatal [] "Error: invalid field polygon."
  else
  match raster_layers p with
  | [] => Fatal [] "Error: no rasters selected."
  | _ :: _ =>
  let '(clipped_rasters, log1) :=
    clip_loop polygon 0 (raster_layers p) ([], [Info "Starting processing…"]) in
  match clipped_rasters with
  | [] => Fatal log1 "No valid rasters after clipping."
  | ref_path :: _ =>
  if negb (raster_isValid ref_path)
  then Fatal log1 "Error loading first clipped raster."
  else
  match grid_request ref_path with
  | Exception exn => Crash log1 exn
  | Value spec =>
  let log2 := log1 ++ [Info "Creating point grid…"; Run "qgis:creategrid"] in
  match run_creategrid (grid_extent spec) (hspacing spec) (vspacing spec)
          (raster_crs ref_path) with
  | Raises e => Fatal log2 ("Grid creation failed: " +:+ e)
  | Returns grid_layer =>
  let '(mask_layer, buffering) := select_mask polygon (buffer_size p) in
  let log3 :=
    log2 ++ [Info "Applying internal buffer…"] ++ buffering
         ++ [Info "Clipping grid to field boundary…"; Run "native:clip"] in
  match run_clip grid_layer mask_layer with
  | Raises e => Fatal log3 ("Grid clipping failed: " +:+ e)
  | Returns clipped_grid =>
      Done (sample_loop 0 clipped_rasters
              {| grid := clipped_grid; used_names := ∅;
                 log := log3 ++ [Info "Sampling rasters…"] |})
  end end end end end end.

(** *** The design's vocabulary for the error paths *)

(** The rasters that survive clipping, as the run computes them. *)
Definition clipped_rasters_of (polygon : Layer) (p : Parameters) : list string :=
  (clip_loop polygon 0 (raster_layers p) ([], [Info "Starting processing…"])).1.









(** Two runs end alike: both normally with the same grid and registry, or
    both with the same exception. *)
Definition same_ending (r1 r2 : result sstate) : Prop :=
  match r1, r2 with
  | Done s1, Done s2 => grid s1 = grid s2 ∧ used_names s1 = used_names s2
  | Fatal _ m1, Fatal _ m2 => m1 = m2
  | Crash _ x1, Crash _ x2 => x1 = x2
  | _, _ => False
  end.

(** The same run with no buffer requested. *)
Definition without_buffer (p : Parameters) : Parameters :=
  {| polygon_layer := polygon_layer p;
     raster_layers := raster_layers p;
     buffer_size := 0 |}.

(** An event of the edit session on the grid. *)
Definition edit_call (ev : event) : bool :=
  match ev with
  | StartEditing | RenameAttributes _ | UpdateFields | RollBack
  | CommitChanges => true
  | _ => false
  end.

End Script.

End Pipeline.

(** ** An in-memory host, for running the script on concrete inputs *)

Module Doubles.

Import PyFloat Geometry Pipeline.

(** [s] up to its first [sep]. *)
Fixpoint until (sep : ascii) (s : string) : string :=
  match s with
  | "" => ""
  | String c s' => if Ascii.eqb c sep then "" else String c (until sep s')
  end.

(** POSIX [basename] and the root of [splitext] (names that start with a
    dot aside). *)
Definition basename (p : string) : string :=
  String.rev (until "/" (String.rev p)).

Definition splitext_root (b : string) : string :=
  let ext := until "." (String.rev b) in
  if (String.length ext =? String.length b)%nat then b
  else String.substring 0 (String.length b - String.length ext - 1)%nat b.

(** How the provider of the double answers [renameAttributes]. *)
Inductive provider : Type := Applies | ReportsFailure | RaisesError.

(** One entry of a rename map, as a provider that keeps its field names
    distinct applies it: an index that is no field, and a name that a
    field already carries, are refused and the fields stay as they are. *)
Definition rename_entry (acc : list string * bool) (entry : Z * string)
  : list string * bool :=
  let '(fields, ok) := acc in
  let '(idx, new) := entry in
  if bool_decide (0 ≤ idx < Z.of_nat (length fields))%Z
     && bool_decide (new ∉ fields)
  then (<[Z.to_nat idx := new]> fields, ok)
  else (fields, false).

(** The entries of a rename map in the order of their indices, the order
    in which the provider goes through them. *)
Definition index_le (e1 e2 : Z * string) : Prop := (e1.1 ≤ e2.1)%Z.

#[global] Instance index_le_dec : RelDecision index_le :=
  λ e1 e2, decide (e1.1 ≤ e2.1)%Z.

Definition by_index (rename_map : gmap Z string) : list (Z * string) :=
  merge_sort index_le (map_to_list rename_map).

(** The rename a provider performs on a whole map, with whether every
    entry was applied. *)
Definition apply_rename (fields : list string) (rename_map : gmap Z string)
  : list string * bool :=
  foldl rename_entry (fields, true) (by_index rename_map).

(** A sampler that appends one column per band, named by the prefix and
    the band number; it raises when the raster has no band count, and when
    the columns of the layer would no longer have distinct names. *)
Definition band_sampler (bands : string → option nat)
    (layer : list string) (r_path prefix : string) : outcome (list string) :=
  match bands r_path with
  | Some n =>
      let sampled := layer ++ ((λ b : nat, prefix +:+ pretty b) <$> seq 1 n) in
      if bool_decide (NoDup sampled) then Returns sampled
      else Raises "field name in use"
  | None => Raises "cannot open raster"
  end.

Record Scenario : Type :=
  { raster_clip : string → string → outcome (option string);
    created_grid : list string;
    buffer_works : bool;
    sampler : list string → string → string → outcome (list string);
    rename_provider : provider }.

(** A layer of the double is the list of its field names; every raster
    reaches from 0 to 10 on both axes, with pixels of one unit. *)
Definition memory_host (sc : Scenario) : Host :=
  {| Layer := list string;
     Crs := unit;
     layer_isValid := λ _, true;
     field_names := λ l, l;
     raster_isValid := λ _, true;
     raster_extent := λ _,
       QgsRectangle (literal 0) (literal 0) (literal 10) (literal 10);
     rasterUnitsPerPixelX := λ _, literal 1;
     rasterUnitsPerPixelY := λ _, literal 1;
     raster_crs := λ _, tt;
     center_x := λ _, literal 5;
     center_y := λ _, literal 5;
     width := λ _, literal 10;
     height := λ _, literal 10;
     temp_dir := "/home/user/temp_clip";
     path_join := λ a b, a +:+ "/" +:+ b;
     path_stem := λ p, splitext_root (basename p);
     path_exists := λ _, true;
     run_cliprasterbymasklayer := λ input _ output, raster_clip sc input output;
     run_creategrid := λ _ _ _ _, Returns (created_grid sc);
     run_buffer := λ l _,
       if buffer_works sc then Returns l else Raises "invalid geometry";
     run_clip := λ g _, Returns g;
     run_rastersampling := sampler sc;
     startEditing := λ l, l;
     renameAttributes := λ l m,
       match rename_provider sc with
       | Applies => let '(l', ok) := apply_rename l m in (l', Returns ok)
       | ReportsFailure => (l, Returns false)
       | RaisesError => (l, Raises "provider error")
       end;
     updateFields := λ l, l;
     rollBack := λ l, l;
     commitChanges := λ l, l;
     canceled_clipping := λ _, false;
     canceled_sampling := λ _, false |}.

(** Every raster clips, the grid generator yields the columns of a QGIS
    point grid, and every raster has one band. *)
Definition plain : Scenario :=
  {| raster_clip := λ _ output, Returns (Some output);
     created_grid := ["id"; "left"; "top"; "right"; "bottom"];
     buffer_works := true;
     sampler := band_sampler (λ _, Some 1%nat);
     rename_provider := Applies |}.

(** The sampler cannot read any raster. *)
Definition unreadable : Scenario :=
  {| raster_clip := raster_clip plain; created_grid := created_grid plain;
     buffer_works := true;
     sampler := band_sampler (λ _, None);
     rename_provider := Applies |}.

(** The sampler returns the layer it was given. *)
Definition silent : Scenario :=
  {| raster_clip := raster_clip plain; created_grid := created_grid plain;
     buffer_works := true;
     sampler := λ layer _ _, Returns layer;
     rename_provider := Applies |}.

(** Every raster has three bands. *)
Definition three_bands : Scenario :=
  {| raster_clip := raster_clip plain; created_grid := created_grid plain;
     buffer_works := true;
     sampler := band_sampler (λ _, Some 3%nat);
     rename_provider := Applies |}.

(** The provider raises on [renameAttributes]. *)
Definition broken_provider : Scenario :=
  {| raster_clip := raster_clip plain; created_grid := created_grid plain;
     buffer_works := true;
     sampler := sampler plain;
     rename_provider := RaisesError |}.

(** The buffer operation raises. *)
Definition broken_buffer : Scenario :=
  {| raster_clip := raster_clip plain; created_grid := created_grid plain;
     buffer_works := false;
     sampler := sampler plain;
     rename_provider := Applies |}.


(** The parameters of a run on the double: a polygon layer with one field,
    the rasters, the buffer distance. *)
Definition parameters (sc : Scenario) (rasters : list string) (distance : Q)
  : @Parameters (memory_host sc) :=
  @Build_Parameters (memory_host sc) (Some ["fid"]) rasters distance.

(** A state of the sampling loop on the double. *)
Definition loop_state (sc : Scenario) (fields : list string)
    (used : gset string) : @sstate (memory_host sc) :=
  @Build_sstate (memory_host sc) fields used [].

End Doubles.

(** ** Views of a run *)

Module Views.

Import Pipeline.

Section Views.

Context `{H : Host}.

(** What the clip of one raster contributes to [clipped_rasters]: the
    output of a call that returned one that exists (lines 166-184). *)
Definition clip_output (polygon : Layer) (raster_path : string)
  : option string :=
  match run_cliprasterbymasklayer raster_path polygon
          (path_join temp_dir (path_stem raster_path +:+ "_clip.tif")) with
  | Returns out => clip_saved out
  | Raises _ => None
  end.

(** The final names a log asks the provider for: the values of the rename
    maps, request by request. *)
Definition requested (ev : event) : list string :=
  match ev with
  | RenameAttributes rename_map => (map_to_list rename_map).*2
  | _ => []
  end.

Definition requested_names (log : list event) : list string :=
  concat (requested <$> log).

(** A state of the sampling loop whose log asks for no final name twice
    and only for names that are in the registry. *)
Definition requests_tracked (st : sstate) : Prop :=
  NoDup (requested_names (log st)) ∧
  ∀ x, x ∈ requested_names (log st) → x ∈ used_names st.

(** A host whose layers keep the names of their fields distinct: the
    sampler returns no layer with two fields of one name, the provider
    applies no rename that would give two fields one name, and the other
    calls of the edit session do not bring such a layer about either. *)
Definition keeps_distinct : Prop :=
  (∀ g r_path prefix sampled,
     run_rastersampling g r_path prefix = Returns sampled →
     NoDup (field_names g) → NoDup (field_names sampled)) ∧
  (∀ g rename_map,
     NoDup (field_names g) →
     NoDup (field_names (renameAttributes g rename_map).1)) ∧
  (∀ g, NoDup (field_names g) →
     NoDup (field_names (startEditing g)) ∧
     NoDup (field_names (updateFields g)) ∧
     NoDup (field_names (rollBack g)) ∧
     NoDup (field_names (commitChanges g))).

(** The events of the clipping loop. *)
Definition clip_event (ev : event) : Prop :=
  match ev with
  | Info _ | Warning _ => True
  | Run alg => alg = "gdal:cliprasterbymasklayer"
  | _ => False
  end.

End Views.

End Views.

(** ** Writing the outputs (Tool.py, lines 397-465) *)

Module Output.

Import Pipeline.

(** What the last part of the run does that an observer can see. *)
Inductive wevent : Type :=
  | WInfo (msg : string)
  | WWarning (msg : string)
  | MakeDirs (dir : string)
  | WriteVector (path format : string)
  | AddMapLayer (path : string).

(** The collaborators of the last part: the project's home path, the
    directory of the polygon layer's source, [os.path.dirname],
    [os.makedirs(d, exist_ok=True)], the vector writer, whether a file
    exists once the writes are over, and whether a file loads as a valid
    layer.  Constructing a layer and adding it to the project are taken to
    return. *)
Class Writer `{H : Host} : Type := {
  home_path : string;
  polygon_source_dir : Layer → string;
  path_dirname : string → string;
  makedirs : string → outcome unit;
  writeAsVectorFormat : Layer → string → string → outcome unit;
  exists_after : string → bool;
  loads_as_layer : string → bool;
}.

(** How the last part ends: with the two paths it returns, or with the
    exception of a directory creation. *)
Inductive wresult : Type :=
  | Written (out_gpkg out_csv : string) (log : list wevent)
  | WriteCrash (log : list wevent) (exn : string).

Section Script.

Context `{W : Writer}.

(** Lines 404-412: [parameterAsFileOutput] values, with the defaults for
    the ones left blank. *)
Definition resolve_output (given file_name : string) (polygon : Layer)
  : string :=
  let project_path :=
    if String.eqb home_path "" then polygon_source_dir polygon
    else home_path in
  if String.eqb given "" then path_join project_path file_name else given.

(** Lines 419-430. *)
Definition write_gpkg (grid : Layer) (out_gpkg : string) : list wevent :=
  if String.eqb out_gpkg "" then []
  else
    match writeAsVectorFormat grid out_gpkg "GPKG" with
    | Returns _ =>
        [WriteVector out_gpkg "GPKG";
         WInfo ("GeoPackage written to " +:+ out_gpkg)]
    | Raises e =>
        [WriteVector out_gpkg "GPKG";
         WWarning ("Failed to write GeoPackage: " +:+ e)]
    end.

(** Lines 433-452. *)
Definition write_csv (grid : Layer) (out_csv : string) : list wevent :=
  if String.eqb out_csv "" then []
  else
    match writeAsVectorFormat grid out_csv "CSV" with
    | Returns _ =>
        [WriteVector out_csv "CSV"; WInfo ("CSV written to " +:+ out_csv)]
        ++ (if loads_as_layer out_csv
            then [AddMapLayer out_csv; WInfo "CSV layer added to the project"]
            else [WWarning ("Could not load CSV: " +:+ out_csv)])
    | Raises e =>
        [WriteVector out_csv "CSV"; WWarning ("Failed to write CSV: " +:+ e)]
    end.

(** Lines 455-459. *)
Definition load_gpkg (out_gpkg : string) : list wevent :=
  if negb (String.eqb out_gpkg "") && exists_after out_gpkg then
    if loads_as_layer out_gpkg
    then [AddMapLayer out_gpkg;
          WInfo "GeoPackage layer added to the project"]
    else []
  else [].

(** Lines 401-465, given the polygon layer, the grid the sampling loop
    ended with and the two [parameterAsFileOutput] values. *)
Definition write_outputs (polygon grid : Layer) (given_gpkg given_csv : string)
  : wresult :=
  let log0 := [WInfo "Writing final outputs…"] in
  let out_gpkg := resolve_output given_gpkg "raster_values.gpkg" polygon in
  let out_csv := resolve_output given_csv "raster_values.csv" polygon in
  match makedirs (path_dirname out_gpkg) with
  | Raises e => WriteCrash (log0 ++ [MakeDirs (path_dirname out_gpkg)]) e
  | Returns _ =>
  match makedirs (path_dirname out_csv) with
  | Raises e =>
      WriteCrash (log0 ++ [MakeDirs (path_dirname out_gpkg);
                           MakeDirs (path_dirname out_csv)]) e
  | Returns _ =>
      Written out_gpkg out_csv
        (log0 ++ [MakeDirs (path_dirname out_gpkg);
                  MakeDirs (path_dirname out_csv)]
              ++ write_gpkg grid out_gpkg
              ++ write_csv grid out_csv
              ++ load_gpkg out_gpkg
              ++ [WInfo "Processing finished!"])
  end end.

End Script.

End Output.

(** ** More in-memory hosts *)

Module MoreDoubles.

Import PyFloat Geometry Pipeline Output Doubles.

(** The in-memory host of a scenario with another pixel size for every
    raster and other answers to the cancellation polls. *)
Definition tuned_host (sc : Scenario) (pixel : float)
    (cancel_clipping cancel_sampling : nat → bool) : Host :=
  let base := memory_host sc in
  {| Layer := @Layer base;
     Crs := @Crs base;
     layer_isValid := @layer_isValid base;
     field_names := @field_names base;
     raster_isValid := @raster_isValid base;
     raster_extent := @raster_extent base;
     rasterUnitsPerPixelX := λ _, pixel;
     rasterUnitsPerPixelY := λ _, pixel;
     raster_crs := @raster_crs base;
     center_x := @center_x base;
     center_y := @center_y base;
     width := @width base;
     height := @height base;
     temp_dir := @temp_dir base;
     path_join := @path_join base;
     path_stem := @path_stem base;
     path_exists := @path_exists base;
     run_cliprasterbymasklayer := @run_cliprasterbymasklayer base;
     run_creategrid := @run_creategrid base;
     run_buffer := @run_buffer base;
     run_clip := @run_clip base;
     run_rastersampling := @run_rastersampling base;
     startEditing := @startEditing base;
     renameAttributes := @renameAttributes base;
     updateFields := @updateFields base;
     rollBack := @rollBack base;
     commitChanges := @commitChanges base;
     canceled_clipping := cancel_clipping;
     canceled_sampling := cancel_sampling |}.

(** A writer on the in-memory host of the plain scenario: a project with
    no home path, a polygon stored under [/data], a file system in which the
    listed directories cannot be created and the listed files cannot be
    written, and in which the listed files are there afterwards. *)
Definition memory_writer (no_dir no_write present : list string)
  : @Writer (memory_host plain) :=
  {| home_path := "";
     polygon_source_dir := λ _, "/data";
     path_dirname := λ p,
       String.substring 0
         (String.length p - String.length (basename p) - 1)%nat p;
     makedirs := λ d,
       if bool_decide (d ∈ no_dir) then Raises "FileNotFoundError"
       else Returns tt;
     writeAsVectorFormat := λ _ p _,
       if bool_decide (p ∈ no_write) then Raises "write error"
       else Returns tt;
     exists_after := λ p, bool_decide (p ∈ present);
     loads_as_layer := λ _, true |}.

End MoreDoubles.

(** * Properties *)

(** ** The name registry *)

Set Warnings "-clear-no-such-hyp".

Section NamesFacts.

Import Names.

Global Instance candidate_inj base : Inj (=) (=) (candidate base).
Proof.
  intros j k E. unfold candidate in E.
  apply (inj (String.app base)) in E.
  apply (inj (String.app "_")) in E.
  by apply (inj pretty).
Qed.

(** The [k]-loop from counter [k], as long as it stops: it stops at the
    first counter whose candidate is free. *)
Lemma unique_loop_some used base fuel : ∀ k n,
  unique_loop fuel used base (candidate base k) (k + 1) = Some n →
  ∃ k', (k ≤ k')%N ∧ n = candidate base k' ∧ (n ∉ used) ∧
        ∀ j, (k ≤ j < k')%N → candidate base j ∈ used.
Proof.
  induction fuel as [|fuel IH]; intros k n; simpl.
  - case_decide; [done|]. intros [= <-]. exists k. repeat split; [lia|done|lia].
  - case_decide as Hin.
    + intros E. apply IH in E as (k' & Hle & -> & Hfree & Hbelow).
      exists k'. repeat split; [lia|done|].
      intros j Hj. destruct (decide (j = k)) as [->|]; [done|].
      apply Hbelow. lia.
    + intros [= <-]. exists k. repeat split; [lia|done|lia].
Qed.

(** When the bound is hit, every candidate tried was a used name. *)
Lemma unique_loop_none used base fuel : ∀ k,
  unique_loop fuel used base (candidate base k) (k + 1) = None →
  ∀ j, (j ≤ fuel)%nat → candidate base (k + N.of_nat j) ∈ used.
Proof.
  induction fuel as [|fuel IH]; intros k; simpl.
  - case_decide as Hin; [|done]. intros _ j Hj.
    replace j with 0%nat by lia. by rewrite N.add_0_r.
  - case_decide as Hin; [|done]. intros E j Hj.
    destruct j as [|j]; [by rewrite N.add_0_r|].
    replace (k + N.of_nat (S j))%N with (k + 1 + N.of_nat j)%N by lia.
    apply (IH _ E). lia.
Qed.

(** A registry cannot hold more candidates than it has elements. *)
Lemma candidates_exceed_registry (used : gset string) base k :
  ¬ ∀ j, (j ≤ size used)%nat → candidate base (k + N.of_nat j) ∈ used.
Proof.
  intros Hall.
  set (l := (λ j : nat, candidate base (k + N.of_nat j)) <$> seq 0 (S (size used))).
  assert (NoDup l) as Hnd.
  { apply NoDup_fmap_2_strong; [|apply NoDup_seq].
    intros i j _ _ E. apply (inj (candidate base)) in E. lia. }
  assert (list_to_set l ⊆ used) as Hsub.
  { intros x Hx. apply elem_of_list_to_set, list_elem_of_fmap in Hx
      as (j & -> & Hj).
    apply elem_of_seq in Hj. apply Hall. lia. }
  apply subseteq_size in Hsub.
  rewrite size_list_to_set in Hsub by done.
  unfold l in Hsub. rewrite length_fmap, length_seq in Hsub. lia.
Qed.

(** The loop of [unique_name] always stops within [size used + 1]
    iterations. *)
Lemma unique_loop_total used base :
  is_Some (unique_loop (S (size used)) used base base 1).
Proof.
  simpl. case_decide as Hin; [|by eexists].
  destruct (unique_loop (size used) used base (candidate base 1) (1 + 1))
    as [n|] eqn:E; [by eexists|].
  destruct (candidates_exceed_registry used base 1).
  by apply unique_loop_none.
Qed.

(** One call: what is returned and what becomes of the registry. *)
Lemma unique_name_spec used base :
  first_free used base (unique_name base used).1 ∧
  ((unique_name base used).1 ∉ used) ∧
  (unique_name base used).2 = {[ (unique_name base used).1 ]} ∪ used.
Proof.
  unfold unique_name. destruct (unique_loop_total used base) as [n E].
  rewrite E. simpl in *. split_and!; [|clear -E|done].
  - case_decide as Hin.
    + right. split; [done|].
      apply unique_loop_some in E as (k & ? & ? & ? & ?). by exists k.
    + left. by injection E as <-.
  - case_decide as Hin.
    + by apply unique_loop_some in E as (k & ? & ? & ? & ?).
    + by injection E as <-.
Qed.

Lemma unique_names_cons b bs used :
  unique_names (b :: bs) used
  = let '(n, used1) := unique_name b used in
    let '(ns, used2) := unique_names bs used1 in
    (n :: ns, used2).
Proof. reflexivity. Qed.

Lemma unique_names_registry bases : ∀ used,
  (unique_names bases used).2
  = list_to_set (unique_names bases used).1 ∪ used.
Proof.
  induction bases as [|b bs IH]; intros used; [set_solver|].
  rewrite unique_names_cons.
  pose proof (unique_name_spec used b) as (_ & _ & Hreg).
  destruct (unique_name b used) as [n u1].
  specialize (IH u1). destruct (unique_names bs u1) as [ns u2].
  simpl in *. set_solver.
Qed.

Lemma unique_names_fresh bases : ∀ used,
  NoDup (unique_names bases used).1 ∧
  ∀ n, n ∈ (unique_names bases used).1 → n ∉ used.
Proof.
  induction bases as [|b bs IH]; intros used.
  { split; [constructor|]. intros n Hn. by apply elem_of_nil in Hn. }
  rewrite unique_names_cons.
  pose proof (unique_name_spec used b) as (_ & Hfresh & Hreg).
  destruct (unique_name b used) as [n u1].
  destruct (IH u1) as [Hnd Hout].
  destruct (unique_names bs u1) as [ns u2]. simpl in *. split.
  - constructor; [|done]. intros Hn. apply Hout in Hn. set_solver.
  - intros m [->|Hm]%elem_of_cons; [done|]. apply Hout in Hm. set_solver.
Qed.

Lemma unique_names_length bases : ∀ used,
  length (unique_names bases used).1 = length bases.
Proof.
  induction bases as [|b bs IH]; intros used; [done|].
  rewrite unique_names_cons.
  destruct (unique_name b used) as [n u1]. specialize (IH u1).
  destruct (unique_names bs u1) as [ns u2]. simpl in *. by rewrite IH.
Qed.

(** The [i]-th call of a run is a call of [unique_name] against the registry
    as the first [i] calls left it. *)
Lemma unique_names_lookup bases : ∀ used i base,
  bases !! i = Some base →
  (unique_names bases used).1 !! i
  = Some (unique_name base (unique_names (take i bases) used).2).1.
Proof.
  induction bases as [|b bs IH]; intros used [|i] base Hi; try done.
  - injection Hi as ->. rewrite unique_names_cons.
    change (unique_names (take 0 (base :: bs)) used).2 with used.
    destruct (unique_name base used) as [n u1].
    by destruct (unique_names bs u1).
  - change (take (S i) (b :: bs)) with (b :: take i bs).
    rewrite !unique_names_cons.
    destruct (unique_name b used) as [n u1]. specialize (IH u1 i base Hi).
    destruct (unique_names bs u1) as [ns u2].
    by destruct (unique_names (take i bs) u1).
Qed.

Lemma unique_names_snoc bases : ∀ used base,
  unique_names (bases ++ [base]) used
  = let '(ns, u) := unique_names bases used in
    (ns ++ [(unique_name base u).1], (unique_name base u).2).
Proof.
  induction bases as [|b bs IH]; intros used base.
  - change ([] ++ [base]) with [base]. rewrite unique_names_cons.
    change (unique_names [] used) with (@nil string, used). lazy beta iota.
    by destruct (unique_name base used).
  - change ((b :: bs) ++ [base]) with (b :: (bs ++ [base])).
    rewrite !unique_names_cons.
    destruct (unique_name b used) as [n u1]. rewrite IH.
    by destruct (unique_names bs u1).
Qed.

End NamesFacts.

(** ** Sorting by numeric suffix *)

Section SuffixFacts.

Import Suffix.

Lemma trailing_digits_all s : all_digits s = true → trailing_digits s = s.
Proof.
  induction s as [|c s IH]; simpl; [done|].
  intros [Hc Hs]%andb_prop. rewrite Hc, (IH Hs). simpl.
  by rewrite bool_decide_eq_true_2.
Qed.

Lemma trailing_digits_fixed s : trailing_digits s = s → all_digits s = true.
Proof.
  induction s as [|c s IH]; simpl; [done|].
  destruct (is_digit c); simpl.
  - case_bool_decide as E; [intros _; by apply IH|].
    intros E2. assert (String.length (trailing_digits s) ≤ String.length s).
    { clear. induction s as [|c s IH]; simpl; [done|].
      destruct (is_digit c && bool_decide (trailing_digits s = s)); simpl; lia. }
    apply (f_equal String.length) in E2. simpl in E2. lia.
  - intros E2. assert (String.length (trailing_digits s) ≤ String.length s).
    { clear. induction s as [|c s IH]; simpl; [done|].
      destruct (is_digit c && bool_decide (trailing_digits s = s)); simpl; lia. }
    apply (f_equal String.length) in E2. simpl in E2. lia.
Qed.

Lemma is_digit_not_newline c : is_digit c = true → Ascii.eqb c newline = false.
Proof.
  destruct (Ascii.eqb_spec c newline) as [->|]; [|done]. by vm_compute.
Qed.

(** What the greedy digit run and the [$] test say about the string: when
    [$] holds after the run, the run is the whole string up to a final
    newline; when it fails, that part is not made of digits only. *)
Lemma span_digits_spec s :
  all_digits (span_digits s).1 = true ∧
  (at_dollar (span_digits s).2 = true →
     drop_final_newline s = (span_digits s).1) ∧
  (at_dollar (span_digits s).2 = false →
     all_digits (drop_final_newline s) = false).
Proof.
  induction s as [|c s (IHd & IHyes & IHno)]; [done|].
  simpl. destruct (is_digit c) eqn:Hc.
  - destruct (span_digits s) as [d rest] eqn:E. simpl in *.
    rewrite Hc, IHd. split_and!; [done| |].
    + intros Hr. destruct s as [|c' s]; [|by rewrite (IHyes Hr)].
      injection E as <- <-. by rewrite is_digit_not_newline.
    + intros Hr. destruct s as [|c' s]; [by injection E as <- <-|].
      cbn [all_digits]. by rewrite Hc, (IHno Hr).
  - simpl. split_and!; [done| |].
    + destruct s as [|c' s]; [|done]. by intros ->.
    + destruct s as [|c' s]; [intros ->; simpl; by rewrite Hc|].
      intros _. simpl. by rewrite Hc.
Qed.

Lemma match_here_spec s :
  match_here s
  = if all_digits (drop_final_newline s)
       && negb (String.eqb (drop_final_newline s) "")
    then Some (drop_final_newline s) else None.
Proof.
  unfold match_here. pose proof (span_digits_spec s) as (Hd & Hyes & Hno).
  destruct (span_digits s) as [d rest]. simpl in *.
  destruct (at_dollar rest).
  - rewrite (Hyes eq_refl), Hd. by destruct d.
  - rewrite (Hno eq_refl). by destruct d.
Qed.

(** The regular expression finds the digits that end the string, read up
    to a final newline. *)
Lemma re_search_spec s :
  re_search s
  = match trailing_digits (drop_final_newline s) with
    | "" => None
    | d => Some d
    end.
Proof.
  induction s as [|c s IH]; [done|].
  cbn [re_search]. rewrite match_here_spec, IH. clear IH.
  destruct s as [|c' s].
  - cbn [drop_final_newline]. destruct (Ascii.eqb c newline) eqn:Hnl; [done|].
    cbn [all_digits trailing_digits]. rewrite andb_true_r.
    by destruct (is_digit c).
  - change (drop_final_newline (String c (String c' s)))
      with (String c (drop_final_newline (String c' s))).
    generalize (drop_final_newline (String c' s)). intros t.
    cbn [all_digits trailing_digits String.eqb negb]. rewrite andb_true_r.
    destruct (is_digit c); cbn [andb]; [|done].
    destruct (all_digits t) eqn:Hall.
    + rewrite (trailing_digits_all _ Hall). by rewrite bool_decide_eq_true_2.
    + case_bool_decide as E; [|done].
      by rewrite (trailing_digits_fixed _ E) in Hall.
Qed.

Lemma keyfunc_suffix_value n :
  keyfunc n = suffix_value (drop_final_newline n).
Proof.
  unfold keyfunc, suffix_value. rewrite re_search_spec.
  by destruct (trailing_digits (drop_final_newline n)).
Qed.

Context {A : Type} (key : A → N).

Lemma insert_by_perm x l : insert_by key x l ≡ₚ x :: l.
Proof.
  induction l as [|y l IH]; simpl; [done|].
  destruct (key x <=? key y)%N; [done|]. rewrite IH. apply Permutation_swap.
Qed.

Lemma sorted_by_perm l : sorted_by key l ≡ₚ l.
Proof.
  induction l as [|x l IH]; simpl; [done|]. by rewrite insert_by_perm, IH.
Qed.

Lemma insert_by_sorted x l :
  StronglySorted (key_le key) l →
  StronglySorted (key_le key) (insert_by key x l).
Proof.
  induction 1 as [|y l Hs IH Hall]; simpl; [by repeat constructor|].
  destruct (N.leb_spec (key x) (key y)) as [Hle|Hlt].
  - constructor; [by constructor|]. constructor; [done|].
    eapply Forall_impl; [exact Hall|]. unfold key_le. intros; lia.
  - constructor; [done|]. rewrite insert_by_perm.
    constructor; [unfold key_le; lia|done].
Qed.

Lemma sorted_by_sorted l : StronglySorted (key_le key) (sorted_by key l).
Proof.
  induction l as [|x l IH]; simpl; [constructor|]. by apply insert_by_sorted.
Qed.

(** Insertion leaves the elements of every other key where they were and
    puts the new one in front of those of its own key. *)
Lemma insert_by_filter k x l :
  filter (λ a, key a = k) (insert_by key x l)
  = filter (λ a, key a = k) (x :: l).
Proof.
  induction l as [|y l IH]; simpl; [done|].
  destruct (N.leb_spec (key x) (key y)) as [Hle|Hlt]; [done|].
  rewrite (filter_cons _ y), IH, !(filter_cons _ x), !(filter_cons _ y).
  repeat case_decide; (done || lia).
Qed.

Lemma sorted_by_stable k l :
  filter (λ a, key a = k) (sorted_by key l) = filter (λ a, key a = k) l.
Proof.
  induction l as [|x l IH]; simpl; [done|].
  by rewrite insert_by_filter, !filter_cons, IH.
Qed.

End SuffixFacts.

(** ** Claims about the naming helpers *)

Section HelperClaims.

Import Names Suffix.

(** C1.  Whatever bases are passed to [unique_name], one call after the
    other and with repeats allowed, no name is returned twice, and none is
    returned that was in the registry at the start.  Each call returns the
    base itself when the base is not yet used, and otherwise the base
    followed by [_k] for the least positive [k] for which that name is not
    yet used; the registry after the call is the registry before it with the
    returned name added. *)
Theorem unique_name_sequence (bases : list string) (used : gset string) :
  NoDup (unique_names bases used).1 ∧
  (∀ n, n ∈ (unique_names bases used).1 → n ∉ used) ∧
  ∀ i base, bases !! i = Some base →
    let before := (unique_names (take i bases) used).2 in
    ∃ n, (unique_names bases used).1 !! i = Some n ∧
         first_free before base n ∧
         (unique_names (take (S i) bases) used).2 = {[ n ]} ∪ before.
Proof.
  destruct (unique_names_fresh bases used) as [Hnd Hout].
  split_and!; [done..|]. intros i base Hi before.
  exists (unique_name base before).1. split_and!.
  - by apply unique_names_lookup.
  - apply unique_name_spec.
  - rewrite (take_S_r _ _ _ Hi), unique_names_snoc. fold before.
    destruct (unique_names (take i bases) used) as [ns u] eqn:E.
    subst before. simpl. apply unique_name_spec.
Qed.

Lemma unique_name_sequence_witness :
  ∃ n, (unique_names ["ndvi"; "ndvi"; "ndvi"] ∅).1 !! 2%nat = Some n ∧
       first_free (unique_names ["ndvi"; "ndvi"] ∅).2 "ndvi" n.
Proof.
  destruct (unique_name_sequence ["ndvi"; "ndvi"; "ndvi"] ∅)
    as (_ & _ & Hcall).
  destruct (Hcall 2%nat "ndvi" eq_refl) as (n & Hn & Hfree & _).
  exists n. split; [exact Hn|exact Hfree].
Defined.

(** What [sort_by_suffix] does, on names of characters below 256 whose
    runs of digits [int] converts: it returns the names it was given, in
    non-decreasing order of their keys and with names of equal key in the
    order they came in.  The key of a name is the integer value of the run
    of digits that ends it, where a newline that is the last character of
    the name is passed over, and 1 when there is no such run.  The
    comparison is numeric: [B2] comes before [B10]. *)
Theorem sort_by_suffix_spec (names : list string) :
  sort_by_suffix names ≡ₚ names ∧
  StronglySorted (key_le keyfunc) (sort_by_suffix names) ∧
  (∀ k, filter (λ n, keyfunc n = k) (sort_by_suffix names)
        = filter (λ n, keyfunc n = k) names) ∧
  (∀ n, keyfunc n = suffix_value (drop_final_newline n)) ∧
  sort_by_suffix ["B2"; "B10"; "B1"] = ["B1"; "B2"; "B10"].
Proof.
  split_and!.
  - apply sorted_by_perm.
  - apply sorted_by_sorted.
  - intros k. apply sorted_by_stable.
  - apply keyfunc_suffix_value.
  - by vm_compute.
Qed.

(** C8, where the code departs from it.  A name whose digits are followed
    by a final newline does not end with a number and has no digit at its
    end, so it is to be ordered as if its suffix were 1.  The pattern's
    [$] also matches before a final newline, so the code orders the name
    by those digits: [a9] with a newline after it, key 9, stays behind
    [a2], and the result is not in the order of the suffix values. *)
Theorem sort_by_suffix_final_newline :
  let a9 := "a9" +:+ String newline "" in
  suffix_value a9 = 1%N ∧ suffix_value "a2" = 2%N ∧
  sort_by_suffix ["a2"; a9] = ["a2"; a9] ∧
  ¬ StronglySorted (key_le suffix_value) (sort_by_suffix ["a2"; a9]).
Proof.
  split_and!; [by vm_compute..|].
  intros Hs. vm_compute in Hs.
  apply StronglySorted_inv in Hs as [_ Hall].
  apply Forall_inv in Hall. vm_compute in Hall. by apply Hall.
Qed.

End HelperClaims.

(** ** The reference grid *)

Section GeometryFacts.

Import PyFloat Geometry.
Local Open Scope Q_scope.

(** On a finite float that is not negative, [int] is the floor. *)
Lemma py_int_floor (x : float) (v : Q) :
  to_Q x = Some v → 0 <= v → py_int x = Value (Qfloor v).
Proof.
  destruct x as [s|s| |s m e]; cbn [to_Q py_int]; try done.
  - by intros [= <-] _.
  - intros [= <-] Hv. destruct s.
    + exfalso. destruct e as [|p|p].
      * by apply Hv.
      * revert Hv. rewrite <- (Zle_Qle 0). pose proof (Z.pow_pos_nonneg 2 (Z.pos p)). lia.
      * by apply Hv.
    + f_equal. destruct e as [|p|p].
      * by rewrite Qfloor_Z.
      * by rewrite Qfloor_Z.
      * cbn [Qfloor]. by rewrite Pos2Z.inj_pow.
Qed.

(** The floor plus one is the least integer above a number. *)
Lemma floor_succ_least (v : Q) :
  v < inject_Z (Qfloor v + 1) ∧
  ∀ m : Z, v < inject_Z m → (Qfloor v + 1 ≤ m)%Z.
Proof.
  split; [apply Qlt_floor|]. intros m Hm.
  assert (inject_Z (Qfloor v) < inject_Z m) as Hz.
  { eapply Qle_lt_trans; [apply Qfloor_le|done]. }
  rewrite <- Zlt_Qlt in Hz. lia.
Qed.

Lemma cell_count_floor (len res q : float) (v : Q) :
  truediv len res = Value q → to_Q q = Some v → 0 <= v →
  cell_count len res = Value (Qfloor v + 1)%Z.
Proof.
  intros Hq Hv Hpos. unfold cell_count. rewrite Hq. cbn.
  by rewrite (py_int_floor q v Hv Hpos).
Qed.

Lemma of_int_two : of_int 2 = Value (literal 2).
Proof. reflexivity. Qed.

Lemma lower_edge_value (center res f : float) (n : Z) :
  of_int n = Value f →
  lower_edge center n res
  = Value (fsub center (fdiv (fmul f res) (literal 2))).
Proof.
  intros Hf. unfold lower_edge, int_mul, div_int. rewrite Hf, of_int_two.
  reflexivity.
Qed.

Lemma upper_edge_value (lower res f : float) (n : Z) :
  of_int n = Value f →
  upper_edge lower n res = Value (fadd lower (fmul f res)).
Proof. intros Hf. unfold upper_edge, int_mul. by rewrite Hf. Qed.

(** C6, as the code has it.  Take a reference raster whose width and
    height, divided in double precision by its pixel sizes, give finite
    quotients [q_x] and [q_y] that are not negative, and whose cell counts
    convert to floats.  Then the arithmetic raises nothing, and the grid
    handed to the grid generator has the pixel sizes as spacings, has
    [floor(q_x) + 1] by [floor(q_y) + 1] cells, and reaches from
    [c - (n * res) / 2] to that edge plus [n * res] on each axis, [c] being
    the centre of the raster extent and every operation one of double
    precision.  Each cell count is the least integer above the quotient. *)
Theorem reference_grid_spec
    (cx cy w h res_x res_y q_x q_y f_x f_y : float) (v_x v_y : Q) :
  truediv w res_x = Value q_x → to_Q q_x = Some v_x → 0 <= v_x →
  truediv h res_y = Value q_y → to_Q q_y = Some v_y → 0 <= v_y →
  of_int (Qfloor v_x + 1) = Value f_x →
  of_int (Qfloor v_y + 1) = Value f_y →
  ∃ spec, reference_grid cx cy w h res_x res_y = Value spec ∧
    hspacing spec = res_x ∧ vspacing spec = res_y ∧
    n_x spec = (Qfloor v_x + 1)%Z ∧
    n_y spec = (Qfloor v_y + 1)%Z ∧
    (v_x < inject_Z (n_x spec) ∧
     ∀ m : Z, v_x < inject_Z m → (n_x spec ≤ m)%Z) ∧
    (v_y < inject_Z (n_y spec) ∧
     ∀ m : Z, v_y < inject_Z m → (n_y spec ≤ m)%Z) ∧
    xMinimum (grid_extent spec)
    = fsub cx (fdiv (fmul f_x res_x) (literal 2)) ∧
    yMinimum (grid_extent spec)
    = fsub cy (fdiv (fmul f_y res_y) (literal 2)) ∧
    xMaximum (grid_extent spec)
    = fadd (xMinimum (grid_extent spec)) (fmul f_x res_x) ∧
    yMaximum (grid_extent spec)
    = fadd (yMinimum (grid_extent spec)) (fmul f_y res_y).
Proof.
  intros Hqx Hvx Hpx Hqy Hvy Hpy Hfx Hfy. unfold reference_grid.
  rewrite (cell_count_floor w res_x q_x v_x Hqx Hvx Hpx).
  rewrite (cell_count_floor h res_y q_y v_y Hqy Hvy Hpy).
  cbn [mbind computed_bind].
  rewrite (lower_edge_value cx res_x f_x _ Hfx).
  rewrite (lower_edge_value cy res_y f_y _ Hfy).
  cbn [mbind computed_bind].
  rewrite (upper_edge_value _ res_x f_x _ Hfx).
  rewrite (upper_edge_value _ res_y f_y _ Hfy).
  cbn [mbind computed_bind].
  eexists. split; [reflexivity|].
  cbn [hspacing vspacing n_x n_y grid_extent xMinimum yMinimum xMaximum
       yMaximum].
  split_and!; try done; apply floor_succ_least.
Qed.

Lemma reference_grid_spec_witness :
  ∃ spec,
    reference_grid (S754_finite false 5910974510923776 (-50))
      (S754_finite false 7881299347898368 (-51))
      (S754_finite false 5910974510923776 (-49)) (literal 7)
      (S754_finite false 4503599627370496 (-53)) (literal 2)
    = Value spec ∧
    n_x spec = 22%Z ∧ n_y spec = 4%Z ∧
    xMinimum (grid_extent spec)
    = S754_finite true 4503599627370496 (-54) ∧
    xMaximum (grid_extent spec)
    = S754_finite false 6051711999279104 (-49).
Proof.
  destruct (reference_grid_spec
              (S754_finite false 5910974510923776 (-50))
              (S754_finite false 7881299347898368 (-51))
              (S754_finite false 5910974510923776 (-49)) (literal 7)
              (S754_finite false 4503599627370496 (-53)) (literal 2)
              (literal 21) (S754_finite false 7881299347898368 (-51))
              (literal 22) (literal 4)
              (5910974510923776 # 281474976710656)
              (7881299347898368 # 2251799813685248))
    as (spec & E & _ & _ & Hnx & Hny & _ & _ & Hl & _ & Hr & _);
    [reflexivity|reflexivity|by vm_compute|reflexivity|reflexivity
    |by vm_compute|reflexivity|reflexivity|].
  exists spec. split_and!; [exact E|exact Hnx|exact Hny| |].
  - rewrite Hl. reflexivity.
  - rewrite Hr, Hl. reflexivity.
Defined.

(** C6 as stated fails in two ways.  When the pixel size divides the
    raster's width, as it does for a raster of whole pixels, the grid has
    one cell more than the fewest that cover it: ten cells of size 1 cover
    a width of 10, and the grid has eleven.  And rounding can leave an edge
    of the raster outside the grid: for a raster from 0.3 to 8.4 with
    pixels of 0.1 the grid starts right of 0.3 when the centre is computed
    as [xmax * 0.5 + xmin * 0.5], and ends left of 8.4 when it is computed
    as [xmin + width / 2]. *)
Lemma reference_grid_not_smallest_cover :
  (∃ spec res len,
     reference_grid (literal 5) (literal 5) (literal 10) (literal 10)
       (literal 1) (literal 1) = Value spec ∧
     n_x spec = 11%Z ∧
     to_Q (literal 1) = Some res ∧ to_Q (literal 10) = Some len ∧
     covers 10 res len ∧
     ¬ smallest_cover (n_x spec) res len) ∧
  let lo := S754_finite false 5404319552844595 (-54) in
  let hi := S754_finite false 4728779608739021 (-49) in
  let pixel := S754_finite false 7205759403792794 (-56) in
  let half := S754_finite false 4503599627370496 (-53) in
  let raster := QgsRectangle lo lo hi hi in
  let w := fsub hi lo in
  (∃ spec,
     let c := fadd (fmul hi half) (fmul lo half) in
     reference_grid c c w w pixel pixel = Value spec ∧
     n_x spec = 81%Z ∧
     fle (xMinimum (grid_extent spec)) lo = false ∧
     contains (grid_extent spec) raster = false) ∧
  (∃ spec,
     let c := fadd lo (fdiv w (literal 2)) in
     reference_grid c c w w pixel pixel = Value spec ∧
     n_x spec = 81%Z ∧
     fle hi (xMaximum (grid_extent spec)) = false ∧
     contains (grid_extent spec) raster = false).
Proof.
  split; [|split].
  - eexists _, _, _. split; [by vm_compute|]. split; [reflexivity|].
    split; [reflexivity|]. split; [reflexivity|]. split.
    + by vm_compute.
    + intros [_ Hleast]. specialize (Hleast 10%Z).
      assert (11 ≤ 10)%Z; [|lia]. apply Hleast. by vm_compute.
  - eexists. split; [by vm_compute|]. by vm_compute.
  - eexists. split; [by vm_compute|]. by vm_compute.
Qed.

End GeometryFacts.

(** ** The sampling loop *)

Section SamplingFacts.

Import Names Suffix Geometry Pipeline.

Context `{H : Host}.

(** The body of the loop, with the pairs it binds written as projections. *)
Lemma sample_one_unfold i r_path st :
  sample_one i r_path st
  = let named := unique_name (base_name_from_clip r_path) (used_names st) in
    let log1 := log st ++ [Info ("Extracting values from: " +:+ named.1);
                           Run "qgis:rastersampling"] in
    match run_rastersampling (grid st) r_path (tmp_prefix i) with
    | Raises e =>
        {| grid := grid st; used_names := named.2;
           log := log1 ++ [Warning ("Error sampling " +:+ named.1 +:+ ": " +:+ e)] |}
    | Returns sampled =>
        let new_fields_sorted :=
          sort_by_suffix
            (detect_new_fields (tmp_prefix i) (field_names (grid st))
               (field_names sampled)) in
        let resolved := resolve_final_names named.1 new_fields_sorted named.2 in
        let renamed :=
          rename_fields sampled named.1 new_fields_sorted resolved.1 in
        {| grid := renamed.1; used_names := resolved.2;
           log := log1 ++ renamed.2 |}
    end.
Proof.
  unfold sample_one.
  destruct (unique_name (base_name_from_clip r_path) (used_names st))
    as [final_base used1].
  destruct (run_rastersampling (grid st) r_path (tmp_prefix i)); [|done].
  cbn [fst snd].
  destruct (resolve_final_names final_base _ used1) as [final_names used2].
  cbn [fst snd].
  by destruct (rename_fields a final_base _ final_names).
Qed.

Lemma sample_loop_cons i r_path rest st :
  canceled_sampling i = false →
  sample_loop i (r_path :: rest) st
  = sample_loop (S i) rest (sample_one i r_path st).
Proof. intros Hc. cbn [sample_loop]. by rewrite Hc. Qed.

Lemma resolve_final_names_registry final_base sorted used :
  used ⊆ (resolve_final_names final_base sorted used).2.
Proof.
  unfold resolve_final_names. case_decide; [done|].
  rewrite unique_names_registry. set_solver.
Qed.

(** The registry only ever grows. *)
Lemma sample_one_registry i r_path st :
  used_names st ⊆ used_names (sample_one i r_path st) ∧
  (unique_name (base_name_from_clip r_path) (used_names st)).1
    ∈ used_names (sample_one i r_path st).
Proof.
  rewrite sample_one_unfold. cbn zeta.
  pose proof (unique_name_spec (used_names st) (base_name_from_clip r_path))
    as (_ & _ & Hreg).
  destruct (run_rastersampling _ _ _); cbn [used_names].
  - pose proof (resolve_final_names_registry
      (unique_name (base_name_from_clip r_path) (used_names st)).1
      (sort_by_suffix (detect_new_fields (tmp_prefix i)
         (field_names (grid st)) (field_names a)))
      (unique_name (base_name_from_clip r_path) (used_names st)).2) as Hsub.
    rewrite Hreg in Hsub at 1. set_solver.
  - rewrite Hreg. set_solver.
Qed.

Lemma sample_loop_registry rest : ∀ i st,
  used_names st ⊆ used_names (sample_loop i rest st).
Proof.
  induction rest as [|r rest IH]; intros i st; cbn [sample_loop]; [done|].
  destruct (canceled_sampling i); [done|].
  etrans; [apply (sample_one_registry i r st)|apply IH].
Qed.

(** A base that is in the registry comes back with a numbered suffix. *)
Lemma unique_name_of_used base used :
  base ∈ used →
  ∃ k, (1 ≤ k)%N ∧ (unique_name base used).1 = candidate base k.
Proof.
  intros Hin. destruct (unique_name_spec used base) as ([[? _]|[_ Hk]] & _ & _);
    [done|].
  destruct Hk as (k & ? & ? & _). by exists k.
Qed.

Lemma filter_none {A} (P : A → Prop) `{!∀ x, Decision (P x)} (l : list A) :
  (∀ x, x ∈ l → ¬ P x) → filter P l = [].
Proof.
  induction l as [|x l IH]; intros Hno; [done|].
  rewrite filter_cons. destruct (decide (P x)) as [HP|_].
  - destruct (Hno x); [by left|done].
  - apply IH. intros y Hy. apply Hno. by right.
Qed.

Lemma detect_no_new_fields prefix fields_before all_names :
  (∀ n, n ∈ all_names → String.prefix prefix n = false) →
  (∀ n, n ∈ all_names → n ∈ fields_before) →
  detect_new_fields prefix fields_before all_names = [].
Proof.
  intros Hpre Hold. unfold detect_new_fields.
  assert (filter (λ n, String.prefix prefix n = true) all_names = []) as ->.
  { apply filter_none. intros n Hn. by rewrite (Hpre n Hn). }
  apply filter_none. intros n Hn Hout. apply Hout.
  apply elem_of_list_to_set. by apply Hold.
Qed.

Lemma resolve_final_names_few final_base sorted used :
  (length sorted ≤ 1)%nat →
  resolve_final_names final_base sorted used = ([final_base], used).
Proof. intros Hlen. unfold resolve_final_names. by case_decide. Qed.

Lemma resolve_final_names_bands final_base sorted used :
  (1 < length sorted)%nat →
  resolve_final_names final_base sorted used
  = unique_names (band_base final_base <$> seq 0 (length sorted)) used.
Proof. intros Hlen. unfold resolve_final_names. case_decide; [lia|done]. Qed.

Lemma rename_fields_nothing g final_base final_names :
  rename_fields g final_base [] final_names = (g, []).
Proof.
  unfold rename_fields. cbn [zip_with build_rename_map]. by case_decide.
Qed.

(** C4.  When the sampling call of an iteration raises, the iteration ends
    with the grid it started with, its only traces are the announcement of
    the raster, the call and one warning, and the loop goes on with the
    next raster: a raster that cannot be sampled does not end the batch. *)
Theorem sampling_failure_skips_raster i r_path rest st e :
  canceled_sampling i = false →
  run_rastersampling (grid st) r_path (tmp_prefix i) = Raises e →
  let final_base :=
    (unique_name (base_name_from_clip r_path) (used_names st)).1 in
  let st' := sample_one i r_path st in
  grid st' = grid st ∧
  log st' = log st ++ [Info ("Extracting values from: " +:+ final_base);
                       Run "qgis:rastersampling";
                       Warning ("Error sampling " +:+ final_base +:+ ": " +:+ e)] ∧
  sample_loop i (r_path :: rest) st = sample_loop (S i) rest st'.
Proof.
  intros Hc He final_base st'. split_and!.
  - unfold st'. rewrite sample_one_unfold. cbn zeta. by rewrite He.
  - unfold st'. rewrite sample_one_unfold. cbn zeta. rewrite He.
    cbn [log]. by rewrite <- app_assoc.
  - by apply sample_loop_cons.
Qed.

(** C10.  When the sampling call returns a layer none of whose fields
    starts with the temporary prefix and all of whose fields were there
    before, the iteration makes no edit-session call: the grid is the layer
    the sampler returned, as it returned it.  The name taken for the raster
    has all the same been entered in the registry, which the rest of the
    loop only extends, and against any such later registry the same base
    name comes back with a numbered suffix. *)
Theorem sampling_without_new_columns i r_path st sampled :
  run_rastersampling (grid st) r_path (tmp_prefix i) = Returns sampled →
  (∀ n, n ∈ field_names sampled → String.prefix (tmp_prefix i) n = false) →
  (∀ n, n ∈ field_names sampled → n ∈ field_names (grid st)) →
  let base := base_name_from_clip r_path in
  let final_base := (unique_name base (used_names st)).1 in
  let st' := sample_one i r_path st in
  grid st' = sampled ∧
  log st' = log st ++ [Info ("Extracting values from: " +:+ final_base);
                       Run "qgis:rastersampling"] ∧
  used_names st' = {[ final_base ]} ∪ used_names st ∧
  (∀ rest j,
     used_names st' ⊆ used_names (sample_loop j rest st')) ∧
  (∀ later, used_names st' ⊆ later →
     ∃ k, (1 ≤ k)%N ∧ (unique_name base later).1 = candidate base k).
Proof.
  intros Hs Hpre Hold base final_base st'.
  assert (sample_one i r_path st
          = {| grid := sampled;
               used_names := {[ final_base ]} ∪ used_names st;
               log := log st ++ [Info ("Extracting values from: " +:+ final_base);
                                 Run "qgis:rastersampling"] |}) as Hst.
  { rewrite sample_one_unfold. cbn zeta. rewrite Hs.
    rewrite (detect_no_new_fields _ _ _ Hpre Hold).
    change (sort_by_suffix []) with (@nil string).
    rewrite resolve_final_names_few by (cbn; lia).
    cbn [fst snd]. rewrite rename_fields_nothing. cbn [fst snd].
    rewrite app_nil_r. f_equal. }
  assert (base ∈ used_names st') as Hbase.
  { unfold st'. rewrite Hst. cbn [used_names].
    destruct (unique_name_spec (used_names st) base) as ([[_ E]|[Hin _]] & _ & _).
    - fold final_base in E. rewrite E. set_solver.
    - set_solver. }
  unfold st' in *. rewrite Hst in *. split_and!; [done..| |].
  - intros rest j. apply sample_loop_registry.
  - intros later Hsub. apply unique_name_of_used. by apply Hsub.
Qed.

End SamplingFacts.

(** ** The edit session and the sampling mask *)

Section SessionFacts.

Import Names Suffix Geometry Pipeline.

Context `{H : Host}.

(** The [try] block once a rename is due, by what the provider answers. *)
Lemma rename_fields_cases g final_base sorted final_names :
  let rename_map :=
    build_rename_map (field_names g) (zip sorted final_names) ∅ in
  rename_map ≠ ∅ →
  rename_fields g final_base sorted final_names
  = match renameAttributes (startEditing g) rename_map with
    | (renamed, Returns true) =>
        (commitChanges (updateFields renamed),
         [StartEditing; RenameAttributes rename_map; UpdateFields;
          CommitChanges])
    | (renamed, Returns false) =>
        (rollBack (updateFields renamed),
         [StartEditing; RenameAttributes rename_map; UpdateFields; RollBack;
          Warning "Field renaming failed for one or more fields."])
    | (left_as, Raises e) =>
        (left_as,
         [StartEditing; RenameAttributes rename_map;
          Warning ("Error renaming fields for " +:+ final_base +:+ ": " +:+ e)])
    end.
Proof.
  intros rename_map Hne. unfold rename_fields. fold rename_map.
  case_decide; [done|].
  destruct (renameAttributes (startEditing g) rename_map) as [l [[]|e]]; done.
Qed.

(** C7, where the code departs from it.  When the provider's rename raises,
    the iteration opens the edit session, makes the call and warns; it
    neither rolls back nor commits, and the grid stays as the failed call
    left it.  When the rename reports failure instead, the session is
    rolled back. *)
Theorem rename_raises_without_rollback g final_base sorted final_names
    left_as e :
  let rename_map :=
    build_rename_map (field_names g) (zip sorted final_names) ∅ in
  rename_map ≠ ∅ →
  renameAttributes (startEditing g) rename_map = (left_as, Raises e) →
  let '(after, calls) := rename_fields g final_base sorted final_names in
  after = left_as ∧
  calls = [StartEditing; RenameAttributes rename_map;
           Warning ("Error renaming fields for " +:+ final_base +:+ ": " +:+ e)] ∧
  (RollBack ∉ calls) ∧ (CommitChanges ∉ calls).
Proof.
  intros rename_map Hne He.
  rewrite (rename_fields_cases g final_base sorted final_names Hne).
  fold rename_map. rewrite He. split_and!; [done..| |].
  - intros Hin. repeat (apply elem_of_cons in Hin as [?|Hin]; [done|]).
    by apply elem_of_nil in Hin.
  - intros Hin. repeat (apply elem_of_cons in Hin as [?|Hin]; [done|]).
    by apply elem_of_nil in Hin.
Qed.

Lemma select_mask_unbuffered polygon (distance : Q) :
  (distance <= 0)%Q → select_mask polygon distance = (polygon, []).
Proof.
  intros Hd. unfold select_mask. apply Qle_bool_iff in Hd. by rewrite Hd.
Qed.

Lemma select_mask_fallback polygon (distance : Q) e :
  (0 < distance)%Q →
  run_buffer polygon (- distance)%Q = Raises e →
  select_mask polygon distance
  = (polygon, [Run "native:buffer"; Warning ("Buffer failed: " +:+ e)]).
Proof.
  intros Hd He. unfold select_mask.
  assert (Qle_bool distance 0 = false) as ->.
  { apply not_true_is_false. rewrite Qle_bool_iff. by apply Qlt_not_le. }
  cbn [negb]. by rewrite He.
Qed.

(** What the sampling loop does to the grid and the registry does not
    depend on what has been logged. *)
Lemma sample_one_log_irrelevant i r_path st1 st2 :
  grid st1 = grid st2 → used_names st1 = used_names st2 →
  grid (sample_one i r_path st1) = grid (sample_one i r_path st2) ∧
  used_names (sample_one i r_path st1) = used_names (sample_one i r_path st2).
Proof.
  intros Hg Hu. rewrite !sample_one_unfold. cbn zeta. rewrite Hg, Hu.
  by destruct (run_rastersampling _ _ _).
Qed.

Lemma sample_loop_log_irrelevant rest : ∀ i st1 st2,
  grid st1 = grid st2 → used_names st1 = used_names st2 →
  grid (sample_loop i rest st1) = grid (sample_loop i rest st2) ∧
  used_names (sample_loop i rest st1) = used_names (sample_loop i rest st2).
Proof.
  induction rest as [|r rest IH]; intros i st1 st2 Hg Hu; cbn [sample_loop];
    [done|].
  destruct (canceled_sampling i); [done|].
  by apply IH; apply sample_one_log_irrelevant.
Qed.

(** C9.  With a buffer distance of 0 the mask is the input polygon and no
    buffer operation is run.  With a positive distance and a buffer
    operation that raises, the script warns, takes the input polygon as
    mask, and the run ends as the run without a buffer does: the failure
    of the buffer never ends it. *)
Theorem buffer_failure_falls_back (p : Parameters) (polygon : Layer) :
  ((buffer_size p == 0)%Q →
   select_mask polygon (buffer_size p) = (polygon, [])) ∧
  ∀ e, (0 < buffer_size p)%Q →
       run_buffer polygon (- buffer_size p)%Q = Raises e →
       select_mask polygon (buffer_size p)
       = (polygon, [Run "native:buffer"; Warning ("Buffer failed: " +:+ e)]) ∧
       (polygon_layer p = Some polygon →
        same_ending (processAlgorithm p) (processAlgorithm (without_buffer p))).
Proof.
  split.
  { intros E. apply select_mask_unbuffered. rewrite E. apply Qle_refl. }
  intros e Hpos He. split; [by apply select_mask_fallback|].
  intros Hp. unfold processAlgorithm.
  cbn [without_buffer polygon_layer raster_layers buffer_size]. rewrite Hp.
  rewrite (select_mask_fallback _ _ _ Hpos He).
  rewrite (select_mask_unbuffered polygon 0) by apply Qle_refl.
  destruct (layer_isValid polygon); cbn [negb]; [|done].
  destruct (raster_layers p) as [|r rs] eqn:Hrs; [done|].
  destruct (clip_loop polygon 0 (r :: rs) _) as [[|ref_path cs] log1]; [done|].
  destruct (raster_isValid ref_path); cbn [negb]; [|done].
  destruct (grid_request ref_path) as [spec|exn]; [|done].
  destruct (run_creategrid _ _ _ _) as [grid_layer|]; [|done].
  destruct (run_clip grid_layer polygon) as [clipped_grid|e']; [|done].
  by apply sample_loop_log_irrelevant.
Qed.

End SessionFacts.

(** ** Fatal and recoverable failures *)

Section FatalFacts.

Import Names Suffix PyFloat Geometry Pipeline.

Context `{H : Host}.

(** The stages of the run that can end it, with the clipping loop's result
    written as projections. *)
Lemma processAlgorithm_stages (p : Parameters) :
  processAlgorithm p
  = match polygon_layer p with
    | None => Fatal [] "Error: invalid field polygon."
    | Some polygon =>
    if negb (layer_isValid polygon)
    then Fatal [] "Error: invalid field polygon."
    else
    match raster_layers p with
    | [] => Fatal [] "Error: no rasters selected."
    | _ :: _ =>
    let clipping :=
      clip_loop polygon 0 (raster_layers p) ([], [Info "Starting processing…"]) in
    match clipped_rasters_of polygon p with
    | [] => Fatal clipping.2 "No valid rasters after clipping."
    | ref_path :: _ =>
    if negb (raster_isValid ref_path)
    then Fatal clipping.2 "Error loading first clipped raster."
    else
    match grid_request ref_path with
    | Exception exn => Crash clipping.2 exn
    | Value spec =>
    let log2 :=
      clipping.2 ++ [Info "Creating point grid…"; Run "qgis:creategrid"] in
    match run_creategrid (grid_extent spec) (hspacing spec) (vspacing spec)
            (raster_crs ref_path) with
    | Raises e => Fatal log2 ("Grid creation failed: " +:+ e)
    | Returns grid_layer =>
    let mask := select_mask polygon (buffer_size p) in
    let log3 :=
      log2 ++ [Info "Applying internal buffer…"] ++ mask.2
           ++ [Info "Clipping grid to field boundary…"; Run "native:clip"] in
    match run_clip grid_layer mask.1 with
    | Raises e => Fatal log3 ("Grid clipping failed: " +:+ e)
    | Returns clipped_grid =>
        Done (sample_loop 0 (clipped_rasters_of polygon p)
                {| grid := clipped_grid; used_names := ∅;
                   log := log3 ++ [Info "Sampling rasters…"] |})
    end end end end end end.
Proof.
  unfold processAlgorithm, clipped_rasters_of.
  destruct (polygon_layer p) as [polygon|]; [|done].
  destruct (negb (layer_isValid polygon)); [done|].
  destruct (raster_layers p) as [|r rs]; [done|].
  destruct (clip_loop polygon 0 (r :: rs) _) as [[|ref_path cs] log1]; [done|].
  cbn [fst snd]. destruct (negb (raster_isValid ref_path)); [done|].
  destruct (grid_request ref_path) as [spec|exn]; [|done].
  destruct (run_creategrid _ _ _ _) as [grid_layer|]; [|done].
  by destruct (select_mask polygon (buffer_size p)) as [mask_layer buffering].
Qed.











End FatalFacts.

(** ** Naming the columns of one raster *)

Section ResolutionFacts.

Import Names Suffix Geometry Pipeline.

Context `{H : Host}.

Lemma indexOf_lookup fields x :
  x ∈ fields →
  (0 ≤ indexOf fields x)%Z ∧
  fields !! Z.to_nat (indexOf fields x) = Some x.
Proof.
  induction fields as [|y fields IH]; [by intros ?%elem_of_nil|].
  cbn [indexOf]. destruct (decide (y = x)) as [->|Hne]; [done|].
  intros [?|Hin]%elem_of_cons; [done|]. destruct (IH Hin) as [Hpos Hlook].
  case_decide; [lia|]. split; [lia|].
  replace (Z.to_nat (1 + indexOf fields x)) with (S (Z.to_nat (indexOf fields x)))
    by lia.
  done.
Qed.

Lemma indexOf_inj fields x y :
  x ∈ fields → y ∈ fields → indexOf fields x = indexOf fields y → x = y.
Proof.
  intros [_ Hx]%indexOf_lookup [_ Hy]%indexOf_lookup E.
  rewrite E in Hx. congruence.
Qed.

Lemma indexOf_absent fields x : x ∉ fields → indexOf fields x = (-1)%Z.
Proof.
  induction fields as [|y fields IH]; [done|].
  intros Hout. cbn [indexOf]. destruct (decide (y = x)) as [->|_].
  - destruct Hout. by left.
  - rewrite IH; [done|]. intros Hin. apply Hout. by right.
Qed.

(** Pairs for other columns leave the entry of a column alone. *)
Lemma build_rename_map_other fields old olds : ∀ news rename_map,
  old ∈ fields → old ∉ olds →
  build_rename_map fields (zip olds news) rename_map !! indexOf fields old
  = rename_map !! indexOf fields old.
Proof.
  induction olds as [|o olds IH]; intros [|n news] m Hin Hout; try done.
  cbn [zip_with build_rename_map].
  assert (old ∉ olds) as Hout' by (intros ?; apply Hout; by right).
  assert (o ≠ old) as Hne by (intros ->; apply Hout; by left).
  destruct (decide (o = n)); [by apply IH|].
  destruct (decide (indexOf fields o ≠ -1)%Z) as [Hidx|_]; [|by apply IH].
  rewrite IH by done. apply lookup_insert_ne. intros E.
  destruct (decide (o ∈ fields)) as [Ho|Ho].
  - by apply (indexOf_inj _ _ _ Ho Hin) in E.
  - by rewrite (indexOf_absent _ _ Ho) in Hidx.
Qed.

(** The map sends each temporary column to the final name at the same
    position. *)
Lemma build_rename_map_lookup fields olds : ∀ news rename_map rank old new,
  NoDup olds → old ∈ fields → old ≠ new →
  olds !! rank = Some old → news !! rank = Some new →
  build_rename_map fields (zip olds news) rename_map !! indexOf fields old
  = Some new.
Proof.
  induction olds as [|o olds IH];
    intros [|n news] m [|rank] old new Hnd Hin Hne Ho Hn; try done.
  - injection Ho as ->. injection Hn as ->.
    cbn [zip_with build_rename_map].
    destruct (decide (old = new)); [done|].
    destruct (indexOf_lookup _ _ Hin) as [Hpos _].
    destruct (decide (indexOf fields old ≠ -1)%Z); [|lia].
    rewrite build_rename_map_other; [apply lookup_insert_eq|done|].
    by apply NoDup_cons in Hnd as [? _].
  - cbn [zip_with build_rename_map]. apply NoDup_cons in Hnd as [_ Hnd].
    destruct (decide (o = n)); [by eapply IH|].
    destruct (decide (indexOf fields o ≠ -1)%Z); by eapply IH.
Qed.

Lemma rename_fields_requests g final_base sorted final_names :
  let rename_map :=
    build_rename_map (field_names g) (zip sorted final_names) ∅ in
  rename_map ≠ ∅ →
  ∃ tail, (rename_fields g final_base sorted final_names).2
          = StartEditing :: RenameAttributes rename_map :: tail.
Proof.
  intros rename_map Hne.
  rewrite (rename_fields_cases g final_base sorted final_names Hne).
  fold rename_map.
  destruct (renameAttributes (startEditing g) rename_map) as [l [[]|e]];
    by eexists.
Qed.

Lemma detect_new_fields_sub prefix fields_before all_names :
  detect_new_fields prefix fields_before all_names ⊆ all_names ∧
  (NoDup all_names →
   NoDup (detect_new_fields prefix fields_before all_names)).
Proof.
  unfold detect_new_fields.
  destruct (filter (λ n, String.prefix prefix n = true) all_names)
    as [|n l] eqn:E.
  - split; [|by apply NoDup_filter]. intros x Hx.
    by apply list_elem_of_filter in Hx as [_ ?].
  - rewrite <- E. split; [|by apply NoDup_filter]. intros x Hx.
    by apply list_elem_of_filter in Hx as [_ ?].
Qed.

(** When the sampler appends columns that carry the prefix to a layer none
    of whose fields carries it, those columns are the new fields. *)
Lemma detect_appended_fields prefix fields_before added :
  Forall (λ n, String.prefix prefix n = false) fields_before →
  Forall (λ n, String.prefix prefix n = true) added →
  added ≠ [] →
  detect_new_fields prefix fields_before (fields_before ++ added) = added.
Proof.
  intros Hold Hnew Hne. unfold detect_new_fields. rewrite filter_app.
  assert (filter (λ n, String.prefix prefix n = true) fields_before = []) as ->.
  { apply filter_none. intros n Hn. rewrite Forall_forall in Hold.
    by rewrite (Hold n Hn). }
  assert (filter (λ n, String.prefix prefix n = true) added = added) as ->.
  { clear Hne. induction Hnew as [|n added Hn _ IH]; [done|].
    rewrite filter_cons, decide_True by done. by rewrite IH. }
  by destruct added.
Qed.

(** The names of an iteration, for the fields the iteration takes to be
    new: the fields that carry its prefix, or else the fields that were
    not there before.  These need not be the fields the sampler added.
    In an iteration whose sampling call returns and in which at least
    one such field is found, the final names are as many as these fields.
    With exactly one such field the final name is [final_base].  With
    several, the name at position [rank] (counted from 0) of the new fields
    sorted by numeric suffix is the result of
    [unique_name(final_base + "_B" + (rank + 1))], the calls being made in
    that order against the registry.  Each new field whose final name
    differs from its present one is entered in the rename map under its
    field index with that final name, and the rename is requested. *)
Theorem band_name_resolution i r_path st sampled :
  run_rastersampling (grid st) r_path (tmp_prefix i) = Returns sampled →
  let named := unique_name (base_name_from_clip r_path) (used_names st) in
  let final_base := named.1 in
  let new_fields :=
    detect_new_fields (tmp_prefix i) (field_names (grid st))
      (field_names sampled) in
  let new_fields_sorted := sort_by_suffix new_fields in
  let count := length new_fields in
  let final_names :=
    (resolve_final_names final_base new_fields_sorted named.2).1 in
  (1 ≤ count)%nat →
  length final_names = count ∧
  (count = 1%nat → final_names = [final_base]) ∧
  ((1 < count)%nat → ∀ rank, (rank < count)%nat →
     final_names !! rank
     = Some (unique_name (band_base final_base rank)
               (unique_names (band_base final_base <$> seq 0 rank) named.2).2).1) ∧
  (NoDup (field_names sampled) → ∀ rank old new,
     new_fields_sorted !! rank = Some old →
     final_names !! rank = Some new →
     old ≠ new →
     ∃ rename_map tail,
       log (sample_one i r_path st)
       = log st ++ [Info ("Extracting values from: " +:+ final_base);
                    Run "qgis:rastersampling"]
                ++ StartEditing :: RenameAttributes rename_map :: tail ∧
       rename_map !! indexOf (field_names sampled) old = Some new ∧
       field_names sampled !! Z.to_nat (indexOf (field_names sampled) old)
       = Some old).
Proof.
  intros Hs named final_base new_fields new_fields_sorted count final_names
    Hcount.
  assert (length new_fields_sorted = count) as Hlen.
  { unfold new_fields_sorted, sort_by_suffix.
    by rewrite (Permutation_length (sorted_by_perm keyfunc new_fields)). }
  split_and!.
  - unfold final_names. destruct (decide (count = 1%nat)) as [E|E].
    + rewrite resolve_final_names_few by lia. by rewrite E.
    + rewrite resolve_final_names_bands by lia.
      by rewrite unique_names_length, length_fmap, length_seq.
  - intros E. unfold final_names. by rewrite resolve_final_names_few by lia.
  - intros Hmany rank Hrank. unfold final_names.
    rewrite resolve_final_names_bands by lia. rewrite Hlen.
    rewrite (unique_names_lookup _ _ rank (band_base final_base rank)).
    + by rewrite <- fmap_take, take_seq, Nat.min_l by lia.
    + rewrite list_lookup_fmap, lookup_seq_lt by done. done.
  - intros Hnd rank old new Hold Hnew Hne.
    destruct (detect_new_fields_sub (tmp_prefix i) (field_names (grid st))
      (field_names sampled)) as [Hsub Hnd'].
    assert (old ∈ new_fields_sorted) as Hin by (by eapply list_elem_of_lookup_2).
    assert (old ∈ field_names sampled) as Hfield.
    { apply Hsub. unfold new_fields_sorted, sort_by_suffix in Hin.
      by rewrite (sorted_by_perm keyfunc new_fields) in Hin. }
    assert (NoDup new_fields_sorted) as Hnds.
    { unfold new_fields_sorted, sort_by_suffix.
      rewrite (sorted_by_perm keyfunc new_fields). by apply Hnd'. }
    pose proof (build_rename_map_lookup (field_names sampled)
      new_fields_sorted final_names ∅ rank old new Hnds Hfield Hne Hold Hnew)
      as Hmap.
    destruct (rename_fields_requests sampled final_base new_fields_sorted
      final_names) as [tail Htail].
    { intros E. rewrite E in Hmap. by rewrite lookup_empty in Hmap. }
    eexists _, tail. split_and!; [|exact Hmap|by apply indexOf_lookup].
    rewrite sample_one_unfold. cbn zeta. rewrite Hs. cbn [log].
    fold named final_base new_fields new_fields_sorted final_names.
    by rewrite Htail, <- app_assoc.
Qed.

End ResolutionFacts.

(** ** The script on the in-memory host *)

Section Runs.

Import Names Suffix Geometry Pipeline Doubles.

Example base_name_from_clip_examples :
  base_name_from_clip (H:=memory_host plain) "ndvi_clip.tif" = "ndvi" ∧
  base_name_from_clip (H:=memory_host plain) "dem.tif" = "dem".
Proof. by vm_compute. Qed.

(** Columns named by prefix and band number come out in band order. *)
Example band_columns_in_band_order :
  sort_by_suffix ["tmp0__10"; "tmp0__2"; "tmp0__1"; "tmp0__11"]
  = ["tmp0__1"; "tmp0__2"; "tmp0__10"; "tmp0__11"].
Proof. by vm_compute. Qed.

(** C3, where the code departs from it.  Two rasters of one band each,
    the first a file named [tmp1__x], the second a file named [b].  The
    first iteration leaves the first raster's column under its final name
    [tmp1__x].  In the second iteration the sampler adds one column,
    [tmp1__1]; the search for the new fields goes by the prefix [tmp1__]
    and finds two, the older column among them.  So the one column that
    was added is not named [b]: the older column is renamed [b_B1] and the
    new one [b_B2]. *)
Theorem older_column_counted_as_new :
  let start := ["id"; "left"; "top"; "right"; "bottom"] in
  (∃ st,
     processAlgorithm (parameters plain ["/data/tmp1__x.tif"] 0) = Done st ∧
     grid st = start ++ ["tmp1__x"]) ∧
  @run_rastersampling (memory_host plain) (start ++ ["tmp1__x"])
    "/home/user/temp_clip/b_clip.tif" (tmp_prefix 1)
  = Returns (start ++ ["tmp1__x"; "tmp1__1"]) ∧
  detect_new_fields (tmp_prefix 1) (start ++ ["tmp1__x"])
    (start ++ ["tmp1__x"; "tmp1__1"])
  = ["tmp1__x"; "tmp1__1"] ∧
  ∃ st,
    processAlgorithm
      (parameters plain ["/data/tmp1__x.tif"; "/data/b.tif"] 0) = Done st ∧
    RenameAttributes {[ 5%Z := "b_B1"; 6%Z := "b_B2" ]} ∈ log st ∧
    grid st = start ++ ["b_B1"; "b_B2"].
Proof.
  intros start. split_and!.
  - eexists. split; by vm_compute.
  - by vm_compute.
  - by vm_compute.
  - eexists. split; [by vm_compute|]. split; [|by vm_compute].
    apply list_elem_of_In. vm_compute. tauto.
Qed.

(** C2 as stated fails on a host that keeps its field names distinct.  The
    names are distinct at every point, but a name is not kept from a later
    column once the column that carried it has been renamed: with the
    rasters [a] and [tmp0__1], the column of the first raster is created
    as [tmp0__1] and renamed [a], and the column of the second raster ends
    with the final name [tmp0__1].  Nor does a final name stay clear of
    the columns the grid starts with: the raster [id] is given the final
    name [id], which the first column of the grid carries, and the
    provider refuses the rename. *)
Lemma temporary_name_becomes_final_name :
  let start := ["id"; "left"; "top"; "right"; "bottom"] in
  @run_rastersampling (memory_host plain) start
    "/home/user/temp_clip/a_clip.tif" (tmp_prefix 0)
  = Returns (start ++ ["tmp0__1"]) ∧
  (∃ st,
     processAlgorithm
       (parameters plain ["/data/a.tif"; "/data/tmp0__1.tif"] 0) = Done st ∧
     RenameAttributes {[ 5%Z := "a" ]} ∈ log st ∧
     RenameAttributes {[ 6%Z := "tmp0__1" ]} ∈ log st ∧
     grid st = start ++ ["a"; "tmp0__1"]) ∧
  (∃ st,
     processAlgorithm (parameters plain ["/data/id.tif"] 0) = Done st ∧
     elements (used_names st) = ["id"] ∧
     RenameAttributes {[ 5%Z := "id" ]} ∈ log st ∧
     RollBack ∈ log st ∧
     grid st = start ++ ["tmp0__1"]).
Proof.
  intros start. split_and!.
  - by vm_compute.
  - eexists. split; [by vm_compute|]. split_and!; [| |by vm_compute].
    + apply list_elem_of_In. vm_compute. tauto.
    + apply list_elem_of_In. vm_compute. tauto.
  - eexists. split; [by vm_compute|]. split_and!; [by vm_compute| | |by vm_compute].
    + apply list_elem_of_In. vm_compute. tauto.
    + apply list_elem_of_In. vm_compute. tauto.
Qed.

(** Three bands sampled into a grid with one column: the columns
    [tmp0__1], [tmp0__2], [tmp0__3] get three final names. *)
Lemma band_name_resolution_witness :
  let host := memory_host three_bands in
  let st := loop_state three_bands ["id"] ∅ in
  let sampled := ["id"; "tmp0__1"; "tmp0__2"; "tmp0__3"] in
  let r_path := "/home/user/temp_clip/rgb_clip.tif" in
  let named :=
    unique_name (base_name_from_clip (H:=host) r_path) (used_names st) in
  length
    (resolve_final_names named.1
       (sort_by_suffix
          (detect_new_fields (tmp_prefix 0) (@field_names host (grid st))
             (@field_names host sampled)))
       named.2).1
  = 3%nat.
Proof.
  intros host st sampled r_path named.
  assert (1 ≤ length
            (detect_new_fields (tmp_prefix 0) (@field_names host (grid st))
               (@field_names host sampled)))%nat
    as Hcount by (vm_compute; lia).
  exact (proj1 (band_name_resolution (H:=host) 0 r_path st sampled eq_refl
                  Hcount)).
Defined.

(** A raster the sampler cannot read, in a one-raster batch. *)
Lemma sampling_failure_skips_raster_witness :
  let st := loop_state unreadable ["id"] ∅ in
  let r_path := "/home/user/temp_clip/dem_clip.tif" in
  grid (sample_one 0 r_path st) = grid st ∧
  sample_loop 0 [r_path] st = sample_loop 1 [] (sample_one 0 r_path st).
Proof.
  intros st r_path.
  destruct (sampling_failure_skips_raster (H:=memory_host unreadable) 0 r_path
              [] st "cannot open raster" eq_refl eq_refl) as (Hg & _ & Hl).
  split; [exact Hg|exact Hl].
Defined.

(** A sampler that adds nothing. *)
Lemma sampling_without_new_columns_witness :
  let st := loop_state silent ["id"] ∅ in
  let r_path := "/home/user/temp_clip/dem_clip.tif" in
  grid (sample_one 0 r_path st) = ["id"] ∧
  used_names (sample_one 0 r_path st)
  = {[ (unique_name (base_name_from_clip (H:=memory_host silent) r_path)
          (used_names st)).1 ]}
    ∪ used_names st.
Proof.
  intros st r_path.
  assert (∀ n : string, n ∈ ["id"] → String.prefix (tmp_prefix 0) n = false)
    as Hpre.
  { intros n Hn. apply list_elem_of_singleton in Hn. by subst n. }
  destruct (sampling_without_new_columns (H:=memory_host silent) 0 r_path st
              ["id"] eq_refl Hpre (λ n Hn, Hn)) as (Hg & _ & Hu & _).
  split; [exact Hg|exact Hu].
Defined.

(** A provider that raises on the rename of a one-band raster's column. *)
Lemma rename_raises_without_rollback_witness :
  RollBack ∉ (rename_fields (H:=memory_host broken_provider)
                ["id"; "tmp0__1"] "ndvi" ["tmp0__1"] ["ndvi"]).2.
Proof.
  assert (build_rename_map
            (@field_names (memory_host broken_provider) ["id"; "tmp0__1"])
            (zip ["tmp0__1"] ["ndvi"]) ∅ ≠ ∅) as Hne.
  { intros E. apply (f_equal (λ m : gmap Z string, m !! 1%Z)) in E.
    vm_compute in E. discriminate E. }
  pose proof (rename_raises_without_rollback (H:=memory_host broken_provider)
                ["id"; "tmp0__1"] "ndvi" ["tmp0__1"] ["ndvi"]
                ["id"; "tmp0__1"] "provider error" Hne eq_refl) as Hw.
  destruct (rename_fields (H:=memory_host broken_provider) _ _ _ _)
    as [after calls].
  destruct Hw as (_ & _ & Hr & _). exact Hr.
Defined.

(** A buffer of half a unit whose operation raises. *)
Lemma buffer_failure_falls_back_witness :
  let p := parameters broken_buffer ["/data/ndvi.tif"] (1 # 2) in
  same_ending (processAlgorithm p) (processAlgorithm (without_buffer p)).
Proof.
  intros p.
  destruct (buffer_failure_falls_back (H:=memory_host broken_buffer) p ["fid"])
    as [_ Hfall].
  destruct (Hfall "invalid geometry" eq_refl eq_refl) as [_ Hsame].
  exact (Hsame eq_refl).
Defined.


End Runs.

(** * Further properties of the script *)

(** ** Strings and decimal numerals *)

Section StringFacts.

Import Suffix.

Lemma string_app_cons c (s t : string) :
  String c s +:+ t = String c (s +:+ t).
Proof. reflexivity. Qed.

Lemma string_app_nil_l (s : string) : "" +:+ s = s.
Proof. reflexivity. Qed.

Lemma string_app_nil_r (s : string) : s +:+ "" = s.
Proof.
  induction s as [|c s IH]; [done|]. by rewrite string_app_cons, IH.
Qed.

Lemma string_app_assoc (a b c : string) : (a +:+ b) +:+ c = a +:+ (b +:+ c).
Proof.
  induction a as [|x a IH]; [done|]. by rewrite !string_app_cons, IH.
Qed.

Lemma string_app_length (a b : string) :
  String.length (a +:+ b) = (String.length a + String.length b)%nat.
Proof.
  induction a as [|x a IH]; [done|].
  rewrite string_app_cons. cbn [String.length]. by rewrite IH.
Qed.

Lemma string_app_inj_r (a b d : string) : a +:+ d = b +:+ d → a = b.
Proof.
  revert b. induction a as [|x a IH]; intros [|y b] E; try done.
  - apply (f_equal String.length) in E.
    rewrite string_app_cons in E. cbn [String.length] in E.
    rewrite string_app_nil_l, string_app_length in E. lia.
  - apply (f_equal String.length) in E.
    rewrite string_app_cons in E. cbn [String.length] in E.
    rewrite string_app_nil_l, string_app_length in E. lia.
  - rewrite !string_app_cons in E. injection E as -> E. by rewrite (IH _ E).
Qed.

Lemma prefix_app (p s : string) : String.prefix p (p +:+ s) = true.
Proof.
  induction p as [|c p IH]; [by destruct s|].
  rewrite string_app_cons. cbn [String.prefix].
  destruct (ascii_dec c c); [done|congruence].
Qed.

Lemma prefix_inv (p s : string) :
  String.prefix p s = true → ∃ r, s = p +:+ r.
Proof.
  revert s. induction p as [|c p IH]; intros s Hp; [by exists s|].
  destruct s as [|c' s]; [done|]. cbn [String.prefix] in Hp.
  destruct (ascii_dec c c') as [->|]; [|done].
  destruct (IH _ Hp) as [r ->]. by exists r.
Qed.

Lemma all_digits_app (a b : string) :
  all_digits (a +:+ b) = all_digits a && all_digits b.
Proof.
  induction a as [|c a IH]; [done|].
  rewrite string_app_cons. cbn [all_digits]. by rewrite IH, andb_assoc.
Qed.

Lemma int_of_digits_from_app (a b : string) : ∀ acc,
  int_of_digits_from acc (a +:+ b)
  = int_of_digits_from (int_of_digits_from acc a) b.
Proof.
  induction a as [|c a IH]; intros acc; [done|].
  rewrite string_app_cons. cbn [int_of_digits_from]. apply IH.
Qed.

Lemma pretty_N_char_digit (d : N) :
  (d < 10)%N → digit_value (pretty_N_char d) = Some d.
Proof.
  intros Hd.
  assert (d = 0 ∨ d = 1 ∨ d = 2 ∨ d = 3 ∨ d = 4 ∨ d = 5 ∨ d = 6 ∨ d = 7
          ∨ d = 8 ∨ d = 9)%N as Hcases by lia.
  repeat (destruct Hcases as [->|Hcases]; [by vm_compute|]). by subst d.
Qed.

Lemma pretty_N_go_app (x : N) : ∀ s,
  pretty_N_go x s = pretty_N_go x "" +:+ s.
Proof.
  induction (N.lt_wf_0 x) as [x _ IH]; intros s.
  destruct (decide (x = 0)%N) as [->|Hx]; [by rewrite !pretty_N_go_0|].
  rewrite !(pretty_N_go_step x) by lia.
  assert (x `div` 10 < x)%N as Hlt by (apply N.div_lt; lia).
  rewrite (IH _ Hlt (String _ s)), (IH _ Hlt (String _ "")).
  by rewrite string_app_assoc.
Qed.

(** The decimal numeral of a number: its digits, and its value read back
    by [int]. *)
Lemma pretty_N_go_digits (x : N) :
  all_digits (pretty_N_go x "") = true ∧
  int_of_digits_from 0 (pretty_N_go x "") = x.
Proof.
  induction (N.lt_wf_0 x) as [x _ IH].
  destruct (decide (x = 0)%N) as [->|Hx]; [by rewrite pretty_N_go_0|].
  rewrite (pretty_N_go_step x), pretty_N_go_app by lia.
  destruct (IH (x `div` 10)%N) as [Hall Hval]; [apply N.div_lt; lia|].
  assert (x `mod` 10 < 10)%N as Hd by (apply N.mod_lt; lia).
  split.
  - rewrite all_digits_app, Hall. cbn [all_digits andb]. unfold is_digit.
    by rewrite pretty_N_char_digit.
  - rewrite int_of_digits_from_app, Hval. cbn [int_of_digits_from].
    rewrite pretty_N_char_digit by done. cbn [default].
    unfold id. symmetry. apply N.div_mod. lia.
Qed.

Lemma pretty_N_digits (n : N) :
  all_digits (pretty n) = true ∧ pretty n ≠ "" ∧ int_of_digits (pretty n) = n.
Proof.
  unfold pretty, pretty_N. destruct (decide (n = 0)%N) as [->|Hn]; [done|].
  destruct (pretty_N_go_digits n) as [Hall Hval]. split_and!; [done| |done].
  intros E. rewrite E in Hval. simpl in Hval. lia.
Qed.

Lemma pretty_nat_digits (n : nat) :
  all_digits (pretty n) = true ∧ pretty n ≠ "" ∧
  int_of_digits (pretty n) = N.of_nat n.
Proof. apply (pretty_N_digits (N.of_nat n)). Qed.

(** Two digit runs each followed by a character that is not a digit: when
    the strings agree, so do the runs. *)
Lemma digit_run_unique (a b : string) c c' x y :
  all_digits a = true → all_digits b = true →
  is_digit c = false → is_digit c' = false →
  a +:+ String c x = b +:+ String c' y → a = b.
Proof.
  intros Ha Hb Hc Hc'. revert b Hb.
  induction a as [|d a IH]; intros [|e b] Hb E;
    rewrite ?string_app_cons, ?string_app_nil_l in E; cbn [all_digits] in *;
    try done.
  - injection E as -> _. apply andb_prop in Hb as [Hb _]. congruence.
  - injection E as -> _. apply andb_prop in Ha as [Ha _]. congruence.
  - injection E as -> E. apply andb_prop in Ha as [_ Ha].
    apply andb_prop in Hb as [_ Hb]. by rewrite (IH Ha _ Hb E).
Qed.

Lemma trailing_digits_length s :
  (String.length (trailing_digits s) ≤ String.length s)%nat.
Proof.
  induction s as [|c s IH]; simpl; [done|].
  destruct (is_digit c && bool_decide (trailing_digits s = s)); simpl; lia.
Qed.

(** Digits appended to a string extend its final run of digits. *)
Lemma trailing_digits_app p d :
  all_digits d = true →
  trailing_digits (p +:+ d) = trailing_digits p +:+ d.
Proof.
  intros Hd. induction p as [|c p IH]; [by apply trailing_digits_all|].
  rewrite string_app_cons. cbn [trailing_digits]. rewrite IH.
  destruct (is_digit c); cbn [andb]; [|done].
  destruct (decide (trailing_digits p = p)) as [E|E].
  - by rewrite !bool_decide_eq_true_2 by (by rewrite ?E).
  - rewrite !bool_decide_eq_false_2; [done..|].
    intros E'. by apply string_app_inj_r in E'.
Qed.

Lemma drop_final_newline_digits p d :
  all_digits d = true → d ≠ "" →
  drop_final_newline (p +:+ d) = p +:+ d.
Proof.
  intros Hd Hne. induction p as [|c p IH].
  - rewrite string_app_nil_l. clear Hne. induction d as [|c d IH]; [done|].
    cbn [all_digits] in Hd. apply andb_prop in Hd as [Hc Hd].
    cbn [drop_final_newline]. destruct d as [|c' d].
    + by rewrite is_digit_not_newline.
    + by rewrite (IH Hd).
  - rewrite string_app_cons. cbn [drop_final_newline]. rewrite IH.
    destruct (p +:+ d) eqn:E; [|done].
    apply (f_equal String.length) in E. rewrite string_app_length in E.
    destruct d; [done|]. cbn [String.length] in E. lia.
Qed.

End StringFacts.

(** ** More on the naming helpers *)

Section NamingExtras.

Import Names Suffix Pipeline.

Lemma candidate_not_base base k : candidate base k ≠ base.
Proof.
  unfold candidate. intros E. apply (f_equal String.length) in E.
  rewrite string_app_length in E. cbn [String.length String.append] in E.
  rewrite string_app_cons in E. cbn [String.length] in E. lia.
Qed.

(** The numerals appended by [unique_name] to a base that keeps being
    asked for: against a registry that holds neither the base nor any of
    its numbered forms, [n + 1] requests for the base return the base,
    then the base with [_1], [_2], ... up to [_n], in that order. *)
Theorem unique_name_numbering (base : string) (used : gset string) (n : nat) :
  base ∉ used → (∀ k, candidate base k ∉ used) →
  (unique_names (replicate (S n) base) used).1
  = base :: ((λ k : nat, candidate base (N.of_nat k)) <$> seq 1 n).
Proof.
  intros Hbase Hcand. induction n as [|n IH].
  - change (replicate 1 base) with [base]. rewrite unique_names_cons.
    destruct (unique_name_spec used base) as ([[_ E]|[Hin _]] & _ & _);
      [|done].
    destruct (unique_name base used) as [m u]. simpl in *. by rewrite E.
  - replace (replicate (S (S n)) base) with (replicate (S n) base ++ [base])
      by (by rewrite <- replicate_cons_app).
    rewrite unique_names_snoc.
    pose proof (unique_names_registry (replicate (S n) base) used) as Hreg.
    destruct (unique_names (replicate (S n) base) used) as [ns u].
    simpl in IH, Hreg. subst ns. cbn [fst].
    rewrite seq_S, fmap_app. cbn [fmap list_fmap Nat.add]. f_equal. f_equal.
    f_equal.
    assert (base ∈ u) as Hin by (rewrite Hreg; set_solver).
    destruct (unique_name_spec u base) as ([[? _]|[_ Hk]] & _ & _); [done|].
    destruct Hk as (k & Hk1 & -> & Hfree & Hbelow). f_equal.
    assert (∀ j : nat, (1 ≤ j ≤ n)%nat → candidate base (N.of_nat j) ∈ u)
      as Hused.
    { intros j Hj. rewrite Hreg. apply elem_of_union_l, elem_of_list_to_set.
      right. apply list_elem_of_fmap. exists j. split; [done|].
      apply elem_of_seq. lia. }
    assert (candidate base (N.of_nat (S n)) ∉ u) as Hnext.
    { rewrite Hreg. intros [Hl|Hu]%elem_of_union; [|by apply (Hcand _ Hu)].
      apply elem_of_list_to_set in Hl.
      apply elem_of_cons in Hl as [E|Hl]; [by apply candidate_not_base in E|].
      apply list_elem_of_fmap in Hl as (j & E & Hj).
      apply (inj (candidate base)) in E. apply elem_of_seq in Hj. lia. }
    destruct (decide (k = N.of_nat (S n))) as [->|Hne]; [done|].
    destruct (decide (k < N.of_nat (S n))%N) as [Hlt|Hge].
    + destruct Hfree. replace k with (N.of_nat (N.to_nat k)) by lia.
      apply Hused. lia.
    + destruct Hnext. apply Hbelow. lia.
Qed.

Lemma unique_name_numbering_witness :
  (unique_names (replicate 3 "ndvi") ∅).1
  = ["ndvi"; candidate "ndvi" 1; candidate "ndvi" 2].
Proof.
  apply (unique_name_numbering "ndvi" ∅ 2).
  - apply not_elem_of_empty.
  - intros k. apply not_elem_of_empty.
Defined.

Lemma keyfunc_numeral (stem : string) (n : N) :
  trailing_digits stem = "" → keyfunc (stem +:+ pretty n) = n.
Proof.
  intros Hstem. destruct (pretty_N_digits n) as (Hall & Hne & Hval).
  rewrite keyfunc_suffix_value, drop_final_newline_digits by done.
  unfold suffix_value. rewrite trailing_digits_app, Hstem by done.
  rewrite string_app_nil_l. by destruct (pretty n).
Qed.

(** The key of a name made of a stem of ASCII characters that does not end
    in a digit, followed by the decimal numeral of a number short enough
    for [int] to convert, is the number. *)
Theorem keyfunc_numbered (stem : string) (n : N) :
  ascii_only stem = true →
  trailing_digits stem = "" →
  (n < 10 ^ int_max_str_digits)%N →
  keyfunc (stem +:+ pretty n) = n.
Proof. intros _ Hstem _. by apply keyfunc_numeral. Qed.

Lemma keyfunc_numbered_witness : keyfunc ("band_" +:+ pretty 12%N) = 12%N.
Proof.
  apply (keyfunc_numbered "band_" 12); [reflexivity|reflexivity|].
  by vm_compute.
Defined.

Lemma trailing_digits_snoc (s : string) c :
  is_digit c = false → trailing_digits (s +:+ String c "") = "".
Proof.
  intros Hc. induction s as [|d s IH].
  - rewrite string_app_nil_l. cbn [trailing_digits]. by rewrite Hc.
  - rewrite string_app_cons. cbn [trailing_digits]. rewrite IH.
    destruct (is_digit d); cbn [andb]; [|done].
    rewrite bool_decide_eq_false_2; [done|].
    intros E. apply (f_equal String.length) in E.
    rewrite string_app_length in E. cbn [String.length] in E. lia.
Qed.

Lemma tmp_prefix_no_digit i : trailing_digits (tmp_prefix i) = "".
Proof.
  unfold tmp_prefix.
  replace ("tmp" +:+ pretty i +:+ "__")
    with (("tmp" +:+ pretty i +:+ "_") +:+ String "_" "")
    by (by rewrite !string_app_assoc).
  by apply trailing_digits_snoc.
Qed.

Lemma insert_by_fmap {A B} (key : B → N) (f : A → B) x l :
  insert_by key (f x) (f <$> l) = f <$> insert_by (key ∘ f) x l.
Proof.
  induction l as [|y l IH]; [done|]. cbn [fmap list_fmap insert_by].
  unfold compose at 1 2. destruct (key (f x) <=? key (f y))%N; [done|].
  cbn [fmap list_fmap]. f_equal. apply IH.
Qed.

Lemma sorted_by_fmap {A B} (key : B → N) (f : A → B) l :
  sorted_by key (f <$> l) = f <$> sorted_by (key ∘ f) l.
Proof.
  induction l as [|x l IH]; [done|]. cbn [fmap list_fmap sorted_by].
  change (list_fmap A B f l) with (f <$> l). by rewrite IH, insert_by_fmap.
Qed.

Lemma sorted_by_ext {A} (key key' : A → N) l :
  (∀ x, key x = key' x) → sorted_by key l = sorted_by key' l.
Proof.
  intros Hext. induction l as [|x l IH]; [done|]. cbn [sorted_by].
  rewrite IH. generalize (sorted_by key' l). intros m.
  induction m as [|y m IHm]; [done|]. cbn [insert_by].
  by rewrite !Hext, IHm.
Qed.

(** A list already in order is left as it is. *)
Lemma sorted_by_fixed {A} (key : A → N) l :
  StronglySorted (key_le key) l → sorted_by key l = l.
Proof.
  induction 1 as [|x l Hs IH Hall]; [done|]. cbn [sorted_by]. rewrite IH.
  destruct Hall as [|y l Hxy _]; [done|]. cbn [insert_by].
  unfold key_le in Hxy. by rewrite (proj2 (N.leb_le _ _) Hxy).
Qed.

(** Sorting twice is sorting once. *)
Theorem sort_by_suffix_idempotent (names : list string) :
  sort_by_suffix (sort_by_suffix names) = sort_by_suffix names.
Proof. apply sorted_by_fixed, sorted_by_sorted. Qed.

(** The columns a sampler names by the iteration's prefix and the band
    number are sorted by band number, whatever order they come in; when
    they come in band order, as bands [1] to [n], the sort leaves them
    there. *)
Theorem sort_by_suffix_band_order (i : nat) (bands : list nat) (n : nat) :
  let column := λ b : nat, tmp_prefix i +:+ pretty b in
  sort_by_suffix (column <$> bands) = column <$> sorted_by N.of_nat bands ∧
  sort_by_suffix (column <$> seq 1 n) = column <$> seq 1 n.
Proof.
  intros column.
  assert (∀ l, sort_by_suffix (column <$> l) = column <$> sorted_by N.of_nat l)
    as Hsort.
  { intros l. unfold sort_by_suffix. rewrite sorted_by_fmap. f_equal.
    apply sorted_by_ext. intros b. unfold compose, column.
    apply (keyfunc_numeral _ (N.of_nat b)), tmp_prefix_no_digit. }
  split; [apply Hsort|]. rewrite Hsort. f_equal. apply sorted_by_fixed.
  generalize 1%nat. induction n as [|n IH]; intros start; [constructor|].
  cbn [seq]. constructor; [apply IH|].
  apply Forall_forall. intros b Hb. apply elem_of_seq in Hb.
  unfold key_le. lia.
Qed.

Lemma tmp_prefix_apart (i j : nat) (name : string) :
  String.prefix (tmp_prefix i) name = true →
  String.prefix (tmp_prefix j) name = true →
  i = j.
Proof.
  intros [r ->]%prefix_inv [r' E]%prefix_inv. unfold tmp_prefix in E.
  rewrite !string_app_assoc in E. apply (inj (String.app "tmp")) in E.
  destruct (pretty_nat_digits i) as (Hi & _ & _).
  destruct (pretty_nat_digits j) as (Hj & _ & _).
  rewrite !string_app_cons, !string_app_nil_l in E.
  apply digit_run_unique in E; [|done..].
  by apply (inj pretty) in E.
Qed.

(** The temporary prefixes of two iterations never overlap: a name that
    starts with the prefix of one iteration does not start with that of
    another. *)
Theorem tmp_prefix_disjoint (i j : nat) (name : string) :
  String.prefix (tmp_prefix i) name = true →
  String.prefix (tmp_prefix j) name = true →
  i = j.
Proof. apply tmp_prefix_apart. Qed.

Lemma tmp_prefix_disjoint_witness : 3%nat = 3%nat.
Proof.
  apply (tmp_prefix_disjoint 3 3 "tmp3__1"); reflexivity.
Defined.

End NamingExtras.

(** ** The base name of a clipped raster *)

Section ClipNameFacts.

Import Names Suffix Geometry Pipeline Doubles.

Lemma substring_skip (b s : string) m :
  String.substring (String.length b) m (b +:+ s) = String.substring 0 m s.
Proof. induction b as [|c b IH]; [done|]. rewrite string_app_cons. apply IH. Qed.

Lemma substring_take (b s : string) :
  String.substring 0 (String.length b) (b +:+ s) = b.
Proof.
  induction b as [|c b IH]; [by destruct s|].
  rewrite string_app_cons. cbn [String.length String.substring].
  by rewrite IH.
Qed.

Lemma substring_length k m (s : string) :
  (String.length (String.substring k m s) ≤ String.length s - k)%nat.
Proof.
  revert k m. induction s as [|c s IH]; intros [|k] [|m];
    cbn [String.substring String.length]; try lia.
  - specialize (IH 0%nat m). lia.
  - apply IH.
  - apply IH.
Qed.

Lemma substring_split k (s : string) :
  (k ≤ String.length s)%nat →
  s = String.substring 0 k s
      +:+ String.substring k (String.length s - k) s.
Proof.
  revert k. induction s as [|c s IH]; intros [|k] Hk;
    cbn [String.length] in *; try lia.
  - done.
  - cbn [String.substring]. rewrite string_app_nil_l.
    change (String c s = String c (String.substring 0 (String.length s) s)).
    f_equal. specialize (IH 0%nat ltac:(lia)).
    cbn [String.substring] in IH.
    replace (String.length s - 0)%nat with (String.length s) in IH by lia.
    destruct s; [done|]. cbn [String.substring] in IH.
    by rewrite string_app_nil_l in IH.
  - cbn [String.substring]. rewrite string_app_cons. f_equal.
    replace (S (String.length s) - S k)%nat with (String.length s - k)%nat
      by lia.
    apply IH. lia.
Qed.

Lemma strip_clip_app (b : string) : strip_clip (b +:+ "_clip") = b.
Proof.
  unfold strip_clip. rewrite string_app_length.
  replace (String.length b + String.length "_clip" - 5)%nat
    with (String.length b) by (cbn [String.length]; lia).
  by rewrite substring_skip, substring_take.
Qed.

(** [strip_clip] takes one [_clip] off the end of a name that ends with it
    and leaves every other name as it is: the result is the name itself, or
    the name is the result followed by [_clip]. *)
Theorem strip_clip_spec (b : string) :
  strip_clip (b +:+ "_clip") = b ∧
  (strip_clip b = b ∨ b = strip_clip b +:+ "_clip").
Proof.
  split; [apply strip_clip_app|].
  - unfold strip_clip.
    destruct (String.eqb_spec
      (String.substring (String.length b - 5) 5 b) "_clip") as [E|_];
      [right|by left].
    pose proof (substring_length (String.length b - 5) 5 b) as Hlen.
    rewrite E in Hlen. cbn [String.length] in Hlen.
    rewrite (substring_split (String.length b - 5) b) at 1 by lia.
    replace (String.length b - (String.length b - 5))%nat with 5%nat by lia.
    by rewrite E.
Qed.

Context `{H : Host}.

(** The clipping loop writes the clip of a raster under the raster's base
    name followed by [_clip.tif]; where the path functions of the host take
    such a path back to that file name without its extension, the sampling
    loop recovers the raster's base name from it. *)
Theorem clip_name_round_trip (raster_path : string) :
  let base_name := path_stem raster_path in
  let output_clip := path_join temp_dir (base_name +:+ "_clip.tif") in
  path_stem output_clip = base_name +:+ "_clip" →
  base_name_from_clip output_clip = base_name.
Proof.
  intros base_name output_clip Hstem. unfold base_name_from_clip.
  rewrite Hstem. apply strip_clip_app.
Qed.

(** Whatever fields the grid had, as long as none of them starts with the
    prefix of the iteration, the new fields are the fields the sampler
    appended under that prefix, in the order it appended them. *)
Theorem appended_columns_detected (i : nat) (fields_before added : list string) :
  Forall (λ n, String.prefix (tmp_prefix i) n = false) fields_before →
  Forall (λ n, String.prefix (tmp_prefix i) n = true) added →
  added ≠ [] →
  detect_new_fields (tmp_prefix i) fields_before (fields_before ++ added)
  = added.
Proof. apply detect_appended_fields. Qed.

End ClipNameFacts.

Section ClipNameWitnesses.

Import Names Suffix Geometry Pipeline Doubles.

Lemma clip_name_round_trip_witness :
  base_name_from_clip (H:=memory_host plain)
    "/home/user/temp_clip/ndvi_clip.tif" = "ndvi".
Proof.
  apply (clip_name_round_trip (H:=memory_host plain) "/data/ndvi.tif").
  reflexivity.
Defined.

Lemma appended_columns_detected_witness :
  detect_new_fields (tmp_prefix 1) ["id"; "ndvi"; "tmp0__1"]
    (["id"; "ndvi"; "tmp0__1"] ++ ["tmp1__1"; "tmp1__2"])
  = ["tmp1__1"; "tmp1__2"].
Proof.
  apply (appended_columns_detected 1 ["id"; "ndvi"; "tmp0__1"]
           ["tmp1__1"; "tmp1__2"]).
  - repeat constructor.
  - repeat constructor.
  - discriminate.
Defined.

End ClipNameWitnesses.

(** ** The loops and the ends of a run *)

Section LoopFacts.

Import Names Suffix Geometry Pipeline Views.

Context `{H : Host}.

Lemma clip_one_output polygon raster_path clipped log0 :
  (clip_one polygon raster_path (clipped, log0)).1
  = clipped ++ option_list (clip_output polygon raster_path).
Proof.
  unfold clip_one, clip_output.
  destruct (run_cliprasterbymasklayer _ _ _) as [out|e]; cbn [fst];
    [|by rewrite app_nil_r].
  destruct (clip_saved out); cbn [fst option_list]; [done|].
  by rewrite app_nil_r.
Qed.

(** With no cancellation, the clipped rasters are the outputs of the clips
    that succeeded, in the order of the input rasters. *)
Theorem clip_loop_survivors polygon (rasters : list string) :
  (∀ j, canceled_clipping j = false) →
  ∀ i clipped log0,
    (clip_loop polygon i rasters (clipped, log0)).1
    = clipped ++ omap (clip_output polygon) rasters.
Proof.
  intros Hc. induction rasters as [|r rasters IH]; intros i clipped log0.
  - cbn [clip_loop omap list_omap fst]. by rewrite app_nil_r.
  - cbn [clip_loop]. rewrite Hc.
    pose proof (clip_one_output polygon r clipped log0) as Hone.
    destruct (clip_one polygon r (clipped, log0)) as [clipped1 log1].
    cbn [fst] in Hone. rewrite IH, Hone, <- app_assoc. f_equal.
    cbn [omap list_omap]. by destruct (clip_output polygon r).
Qed.

(** A cancellation seen at the poll of an iteration ends the loop there:
    the rasters from that one on are not touched.  This holds for the
    clipping loop and for the sampling loop. *)
Theorem cancellation_truncates (k : nat) polygon :
  (∀ rasters i acc,
     (∀ j, (j < k)%nat → canceled_clipping (i + j) = false) →
     canceled_clipping (i + k) = true →
     clip_loop polygon i rasters acc
     = clip_loop polygon i (take k rasters) acc) ∧
  (∀ rasters i st,
     (∀ j, (j < k)%nat → canceled_sampling (i + j) = false) →
     canceled_sampling (i + k) = true →
     sample_loop i rasters st = sample_loop i (take k rasters) st).
Proof.
  split.
  - induction k as [|k IH]; intros [|r rasters] i acc Hnot Hcan; try done.
    + cbn [take clip_loop]. by rewrite Nat.add_0_r in Hcan; rewrite Hcan.
    + cbn [take clip_loop]. destruct (canceled_clipping i); [done|].
      apply IH.
      * intros j Hj. replace (S i + j)%nat with (i + S j)%nat by lia.
        apply Hnot. lia.
      * by replace (S i + k)%nat with (i + S k)%nat by lia.
  - induction k as [|k IH]; intros [|r rasters] i st Hnot Hcan; try done.
    + cbn [take sample_loop]. by rewrite Nat.add_0_r in Hcan; rewrite Hcan.
    + cbn [take sample_loop]. destruct (canceled_sampling i); [done|].
      apply IH.
      * intros j Hj. replace (S i + j)%nat with (i + S j)%nat by lia.
        apply Hnot. lia.
      * by replace (S i + k)%nat with (i + S k)%nat by lia.
Qed.


Lemma clip_one_events polygon raster_path acc :
  Forall clip_event acc.2 →
  Forall clip_event (clip_one polygon raster_path acc).2.
Proof.
  destruct acc as [clipped log0]. cbn [snd]. intros Hlog. unfold clip_one.
  destruct (run_cliprasterbymasklayer _ _ _) as [out|e]; cbn [snd].
  - destruct (clip_saved out); cbn [snd];
      repeat (apply Forall_app; split); try done; by repeat constructor.
  - repeat (apply Forall_app; split); try done; by repeat constructor.
Qed.

Lemma clip_loop_events polygon rasters : ∀ i acc,
  Forall clip_event acc.2 →
  Forall clip_event (clip_loop polygon i rasters acc).2.
Proof.
  induction rasters as [|r rasters IH]; intros i acc Hlog; [done|].
  cbn [clip_loop]. destruct (canceled_clipping i); [done|].
  by apply IH, clip_one_events.
Qed.

Lemma sample_one_raises i r_path st e :
  run_rastersampling (grid st) r_path (tmp_prefix i) = Raises e →
  grid (sample_one i r_path st) = grid st ∧
  filter (λ ev, edit_call ev = true) (log (sample_one i r_path st))
  = filter (λ ev, edit_call ev = true) (log st).
Proof.
  intros He. rewrite sample_one_unfold. cbn zeta. rewrite He. cbn [grid log].
  split; [done|]. rewrite !filter_app. cbn. by rewrite !app_nil_r.
Qed.

(** A batch in which the sampling of every raster raises ends with the
    grid it started with, and no edit session is ever opened on it. *)
Theorem all_samplings_fail (rasters : list string) (g : Layer) :
  (∀ j r, ∃ e, run_rastersampling g r (tmp_prefix j) = Raises e) →
  ∀ i st, grid st = g →
    grid (sample_loop i rasters st) = g ∧
    filter (λ ev, edit_call ev = true) (log (sample_loop i rasters st))
    = filter (λ ev, edit_call ev = true) (log st).
Proof.
  intros Hfail. induction rasters as [|r rasters IH]; intros i st Hg;
    cbn [sample_loop]; [done|].
  destruct (canceled_sampling i); [done|].
  destruct (Hfail i r) as [e He]. rewrite <- Hg in He.
  destruct (sample_one_raises i r st e He) as [Hgrid Hlog].
  destruct (IH (S i) (sample_one i r st)) as [Hg' Hlog'];
    [by rewrite Hgrid|].
  split; [done|]. by rewrite Hlog', Hlog.
Qed.

End LoopFacts.

(** ** The names a run asks the provider for *)

Section RequestFacts.

Import Names Suffix Geometry Pipeline Views.

Context `{H : Host}.

Lemma requested_names_app l k :
  requested_names (l ++ k) = requested_names l ++ requested_names k.
Proof. unfold requested_names. by rewrite fmap_app, concat_app. Qed.

Lemma requested_names_none l :
  Forall (λ ev, requested ev = []) l → requested_names l = [].
Proof.
  induction 1 as [|ev l Hev _ IH]; [done|].
  unfold requested_names in *. cbn [fmap list_fmap concat]. by rewrite Hev, IH.
Qed.

(** The values of a map after one more entry. *)
Lemma values_insert (m : gmap Z string) k v :
  NoDup (map_to_list m).*2 → v ∉ (map_to_list m).*2 →
  NoDup (map_to_list (<[k:=v]> m)).*2 ∧
  ∀ x, x ∈ (map_to_list (<[k:=v]> m)).*2 → x = v ∨ x ∈ (map_to_list m).*2.
Proof.
  intros Hnd Hv. destruct (m !! k) as [y|] eqn:Hk.
  - rewrite <- insert_delete_eq.
    assert ((map_to_list (<[k:=v]> (delete k m))).*2
            ≡ₚ v :: (map_to_list (delete k m)).*2) as Hnew.
    { by rewrite (map_to_list_insert (delete k m))
        by apply lookup_delete_eq. }
    assert ((map_to_list m).*2 ≡ₚ y :: (map_to_list (delete k m)).*2) as Hold
      by (by rewrite <- (map_to_list_delete m k y Hk)).
    rewrite Hold in Hnd, Hv. apply NoDup_cons in Hnd as [_ Hnd]. split.
    + rewrite Hnew. constructor; [|done]. intros Hin. apply Hv. by right.
    + intros x Hx. rewrite Hnew in Hx.
      apply elem_of_cons in Hx as [->|Hx]; [by left|]. right.
      rewrite Hold. by right.
  - assert ((map_to_list (<[k:=v]> m)).*2 ≡ₚ v :: (map_to_list m).*2) as Hnew
      by (by rewrite (map_to_list_insert m) by done).
    split.
    + rewrite Hnew. by constructor.
    + intros x Hx. rewrite Hnew in Hx.
      apply elem_of_cons in Hx as [->|Hx]; [by left|by right].
Qed.

(** The values of a rename map are final names, each at most once. *)
Lemma build_rename_map_values fields olds : ∀ news rename_map,
  NoDup (map_to_list rename_map).*2 → NoDup news →
  (∀ v, v ∈ (map_to_list rename_map).*2 → v ∉ news) →
  NoDup (map_to_list
           (build_rename_map fields (zip olds news) rename_map)).*2 ∧
  ∀ x, x ∈ (map_to_list
              (build_rename_map fields (zip olds news) rename_map)).*2 →
       x ∈ (map_to_list rename_map).*2 ∨ x ∈ news.
Proof.
  induction olds as [|o olds IH]; intros [|n news] m Hm Hnews Hdis;
    cbn [zip_with build_rename_map]; try (split; [done|by left]).
  apply NoDup_cons in Hnews as [Hn Hnews].
  assert (∀ v, v ∈ (map_to_list m).*2 → v ∉ news) as Hdis'.
  { intros v Hv Hin. apply (Hdis v Hv). by right. }
  assert (n ∉ (map_to_list m).*2) as Hfresh.
  { intros Hin. apply (Hdis n Hin). by left. }
  destruct (decide (o = n)) as [_|_].
  { destruct (IH news m Hm Hnews Hdis') as [Hnd Hsub]. split; [done|].
    intros x Hx. destruct (Hsub x Hx); [by left|right; by right]. }
  destruct (decide (indexOf fields o ≠ -1)%Z) as [_|_].
  - destruct (values_insert m (indexOf fields o) n Hm Hfresh) as [Hm' Hsub'].
    destruct (IH news (<[indexOf fields o:=n]> m) Hm' Hnews) as [Hnd Hsub].
    { intros v Hv Hin. destruct (Hsub' v Hv) as [->|Hv']; [done|].
      by apply (Hdis' v Hv'). }
    split; [done|]. intros x Hx. destruct (Hsub x Hx) as [Hx'|Hx'].
    + destruct (Hsub' x Hx') as [->|?]; [right; by left|by left].
    + right; by right.
  - destruct (IH news m Hm Hnews Hdis') as [Hnd Hsub]. split; [done|].
    intros x Hx. destruct (Hsub x Hx); [by left|right; by right].
Qed.

Lemma rename_fields_requested g final_base sorted final_names :
  NoDup final_names →
  NoDup (requested_names (rename_fields g final_base sorted final_names).2) ∧
  ∀ x, x ∈ requested_names (rename_fields g final_base sorted final_names).2 →
       x ∈ final_names.
Proof.
  intros Hnd.
  destruct (build_rename_map_values (field_names g) sorted final_names ∅)
    as [Hvals Hsub]; [by rewrite map_to_list_empty; constructor|done| |].
  { intros v Hv. rewrite map_to_list_empty in Hv. by apply elem_of_nil in Hv. }
  assert (∀ x, x ∈ (map_to_list (build_rename_map (field_names g)
                      (zip sorted final_names) ∅)).*2 → x ∈ final_names)
    as Hsub'.
  { intros x Hx. destruct (Hsub x Hx) as [Hx'|]; [|done].
    rewrite map_to_list_empty in Hx'. by apply elem_of_nil in Hx'. }
  unfold rename_fields. case_decide as Hempty.
  { split; [constructor|]. intros x Hx. by apply elem_of_nil in Hx. }
  destruct (renameAttributes _ _) as [l [[]|e]]; cbn [snd];
    unfold requested_names; cbn [fmap list_fmap concat requested];
    rewrite ?app_nil_r; done.
Qed.

Lemma resolve_final_names_fresh final_base sorted used :
  final_base ∈ used →
  let resolved := resolve_final_names final_base sorted used in
  NoDup resolved.1 ∧
  (∀ x, x ∈ resolved.1 → x ∈ resolved.2) ∧
  (∀ x, x ∈ resolved.1 → x = final_base ∨ x ∉ used).
Proof.
  intros Hin. unfold resolve_final_names. case_decide; cbn zeta.
  - cbn [fst snd]. split_and!.
    + repeat constructor. by intros ?%elem_of_nil.
    + intros x ->%list_elem_of_singleton. done.
    + intros x ->%list_elem_of_singleton. by left.
  - destruct (unique_names_fresh
      (band_base final_base <$> seq 0 (length sorted)) used) as [Hnd Hout].
    rewrite unique_names_registry. split_and!; [done| |].
    + intros x Hx. apply elem_of_union_l. by apply elem_of_list_to_set.
    + intros x Hx. right. by apply Hout.
Qed.

Lemma sample_one_tracked i r_path st :
  requests_tracked st → requests_tracked (sample_one i r_path st).
Proof.
  intros [Hnd Hreg].
  pose proof (sample_one_registry i r_path st) as [Hgrow Hbase].
  revert Hgrow Hbase. rewrite sample_one_unfold. cbn zeta.
  pose proof (unique_name_spec (used_names st) (base_name_from_clip r_path))
    as (_ & Hfresh & Hadd).
  set (named := unique_name (base_name_from_clip r_path) (used_names st)) in *.
  destruct (run_rastersampling _ _ _) as [sampled|e]; cbn [log used_names].
  - set (sorted := sort_by_suffix _).
    intros Hgrow Hbase.
    assert (named.1 ∈ named.2) as Hin by (rewrite Hadd; set_solver).
    destruct (resolve_final_names_fresh named.1 sorted named.2 Hin)
      as (Hfinal & Hkept & Hnew).
    destruct (rename_fields_requested sampled named.1 sorted
      (resolve_final_names named.1 sorted named.2).1 Hfinal) as [Hreq Hsub].
    unfold requests_tracked. cbn [log used_names]. split.
    + rewrite !requested_names_app. cbn [requested_names fmap list_fmap concat
        requested app]. rewrite app_nil_r.
      apply NoDup_app. split_and!; [done| |done].
      intros x Hx Hx'. apply Hsub in Hx'.
      destruct (Hnew x Hx') as [->|Hout].
      * by apply Hfresh, Hreg.
      * apply Hout. rewrite Hadd. apply elem_of_union_r. by apply Hreg.
    + intros x. rewrite !requested_names_app. cbn [requested_names fmap
        list_fmap concat requested app]. rewrite app_nil_r.
      intros [Hx|Hx]%elem_of_app; [by apply Hgrow, Hreg|].
      by apply Hkept, Hsub.
  - intros Hgrow _. unfold requests_tracked. cbn [log used_names].
    rewrite !requested_names_app.
    cbn [requested_names fmap list_fmap concat requested app].
    rewrite ?app_nil_r. split; [done|]. intros x Hx. by apply Hgrow, Hreg.
Qed.

Lemma sample_loop_tracked rasters : ∀ i st,
  requests_tracked st → requests_tracked (sample_loop i rasters st).
Proof.
  induction rasters as [|r rasters IH]; intros i st Hst; cbn [sample_loop];
    [done|].
  destruct (canceled_sampling i); [done|]. by apply IH, sample_one_tracked.
Qed.

Lemma clip_event_no_request ev : clip_event ev → requested ev = [].
Proof. by destruct ev. Qed.

(** A run that ends normally is the sampling loop run from a state with an
    empty registry and a log that asks for no name. *)
Lemma processAlgorithm_done (p : Parameters) st :
  processAlgorithm p = Done st →
  ∃ rasters start,
    st = sample_loop 0 rasters start ∧
    used_names start = ∅ ∧ requested_names (log start) = [].
Proof.
  rewrite processAlgorithm_stages.
  destruct (polygon_layer p) as [polygon|]; [|done].
  destruct (layer_isValid polygon); cbn [negb]; [|done].
  destruct (raster_layers p) as [|r rs] eqn:Hr; [done|]. cbn zeta.
  destruct (clipped_rasters_of polygon p) as [|ref_path cs]; [done|].
  destruct (raster_isValid ref_path); cbn [negb]; [|done].
  destruct (grid_request ref_path) as [spec|exn]; [|done].
  destruct (run_creategrid _ _ _ _) as [grid_layer|]; [|done].
  destruct (run_clip _ _) as [clipped_grid|]; [|done].
  intros E.
  match type of E with
  | Done (sample_loop _ ?rs ?s) = _ => exists rs, s
  end.
  split; [congruence|]. split; [done|]. cbn [log].
  assert (requested_names (select_mask polygon (buffer_size p)).2 = [])
    as Hmask.
  { unfold select_mask. destruct (negb _); [|done].
    by destruct (run_buffer _ _). }
  assert (requested_names
            (clip_loop polygon 0 (r :: rs)
               ([], [Info "Starting processing…"])).2 = []) as Hclip.
  { apply requested_names_none.
    eapply Forall_impl; [|apply clip_event_no_request].
    apply (clip_loop_events polygon (r :: rs) 0
             ([], [Info "Starting processing…"])).
    cbn [snd]. by repeat constructor. }
  by rewrite !requested_names_app, Hclip, Hmask.
Qed.

(** Over a whole run, no final name is asked of the provider twice, and
    every final name asked for is in the registry: this holds of any run
    that ends normally, and the sampling loop keeps it from any state in
    which it holds. *)
Theorem requested_names_distinct (p : Parameters) :
  (∀ st, processAlgorithm p = Done st →
         NoDup (requested_names (log st)) ∧
         ∀ x, x ∈ requested_names (log st) → x ∈ used_names st) ∧
  (∀ rasters i st,
     NoDup (requested_names (log st)) →
     (∀ x, x ∈ requested_names (log st) → x ∈ used_names st) →
     NoDup (requested_names (log (sample_loop i rasters st))) ∧
     ∀ x, x ∈ requested_names (log (sample_loop i rasters st)) →
          x ∈ used_names (sample_loop i rasters st)).
Proof.
  split.
  - intros st (rasters & start & -> & Hused & Hlog)%processAlgorithm_done.
    apply sample_loop_tracked. unfold requests_tracked. rewrite Hlog.
    split; [constructor|]. intros x Hx. by apply elem_of_nil in Hx.
  - intros rasters i st Hnd Hreg. by apply sample_loop_tracked.
Qed.

End RequestFacts.

(** ** Column names over the sampling loop *)

Section DistinctNames.

Import Names Suffix Geometry Pipeline Views.

Context `{H : Host}.

Lemma rename_fields_distinct g final_base sorted final_names :
  keeps_distinct → NoDup (field_names g) →
  NoDup (field_names (rename_fields g final_base sorted final_names).1).
Proof.
  intros (_ & Hrename & Hsession) Hg. unfold rename_fields.
  case_decide; [done|].
  set (rename_map := build_rename_map _ _ _).
  pose proof (Hrename (startEditing g) rename_map
                (proj1 (Hsession g Hg))) as Hrenamed.
  destruct (renameAttributes (startEditing g) rename_map) as [l [[]|e]];
    cbn [fst] in *; [| |done].
  - apply Hsession, Hsession, Hrenamed.
  - apply Hsession, Hsession, Hrenamed.
Qed.

Lemma sample_one_distinct i r_path st :
  keeps_distinct → NoDup (field_names (grid st)) →
  NoDup (field_names (grid (sample_one i r_path st))).
Proof.
  intros Hhost Hg. rewrite sample_one_unfold. cbn zeta.
  destruct (run_rastersampling (grid st) r_path (tmp_prefix i))
    as [sampled|e] eqn:Hs; cbn [grid]; [|done].
  apply rename_fields_distinct; [done|].
  destruct Hhost as (Hsample & _). by eapply Hsample.
Qed.

Lemma sample_loop_distinct rasters : ∀ i st,
  keeps_distinct → NoDup (field_names (grid st)) →
  NoDup (field_names (grid (sample_loop i rasters st))).
Proof.
  induction rasters as [|r rasters IH]; intros i st Hhost Hg;
    cbn [sample_loop]; [done|].
  destruct (canceled_sampling i); [done|].
  by apply IH, sample_one_distinct.
Qed.

(** C2, as the code has it.  On a host that keeps the field names of its
    layers distinct, the column names of the grid are pairwise distinct
    after every pass of the sampling loop, however many rasters have been
    sampled.  The final names the loop asks the provider for are pairwise
    distinct over the whole run and all of them are in the registry, which
    only grows.  The temporary prefixes of two different iterations never
    fit the same name. *)
Theorem column_names_stay_distinct (rasters : list string) (i : nat)
    (st : sstate) :
  keeps_distinct →
  NoDup (field_names (grid st)) →
  requests_tracked st →
  NoDup (field_names (grid (sample_loop i rasters st))) ∧
  NoDup (requested_names (log (sample_loop i rasters st))) ∧
  (∀ x, x ∈ requested_names (log (sample_loop i rasters st)) →
        x ∈ used_names (sample_loop i rasters st)) ∧
  used_names st ⊆ used_names (sample_loop i rasters st) ∧
  ∀ a b name,
    String.prefix (tmp_prefix a) name = true →
    String.prefix (tmp_prefix b) name = true →
    a = b.
Proof.
  intros Hhost Hg Hst.
  destruct (sample_loop_tracked rasters i st Hst) as [Hnd Hreg].
  split_and!; [by apply sample_loop_distinct|done|done| |].
  - apply sample_loop_registry.
  - apply tmp_prefix_apart.
Qed.

End DistinctNames.

(** ** The in-memory host keeps its field names distinct *)

Section DoubleFacts.

Import Names Suffix Geometry Pipeline Views Doubles.

Lemma elem_of_insert_fresh (l : list string) : ∀ i x y,
  y ∈ <[i:=x]> l → y = x ∨ y ∈ l.
Proof.
  induction l as [|z l IH]; intros [|i] x y; cbn; try by right.
  - intros [->|Hy]%elem_of_cons; [by left|]. right. by right.
  - intros [->|Hy]%elem_of_cons; [right; by left|].
    destruct (IH i x y Hy) as [->|Hin]; [by left|]. right. by right.
Qed.

Lemma NoDup_insert_fresh (l : list string) : ∀ i x,
  NoDup l → x ∉ l → NoDup (<[i:=x]> l).
Proof.
  induction l as [|z l IH]; intros [|i] x Hnd Hx; cbn; try done.
  - apply NoDup_cons in Hnd as [_ Hnd]. apply NoDup_cons. split; [|done].
    intros Hin. apply Hx. by right.
  - apply NoDup_cons in Hnd as [Hz Hnd]. apply NoDup_cons. split.
    + intros [->|Hin]%elem_of_insert_fresh; [|done]. apply Hx. by left.
    + apply IH; [done|]. intros Hin. apply Hx. by right.
Qed.

Lemma rename_entry_distinct acc entry :
  NoDup acc.1 → NoDup (rename_entry acc entry).1.
Proof.
  destruct acc as [fields ok], entry as [idx new]. cbn [fst rename_entry].
  intros Hnd. destruct (bool_decide (0 ≤ idx < Z.of_nat (length fields))%Z);
    cbn [andb fst]; [|done].
  case_bool_decide; cbn [fst]; [|done]. by apply NoDup_insert_fresh.
Qed.

Lemma apply_rename_distinct fields rename_map :
  NoDup fields → NoDup (apply_rename fields rename_map).1.
Proof.
  unfold apply_rename. generalize (by_index rename_map). intros entries.
  generalize true. revert fields.
  induction entries as [|entry entries IH]; intros fields ok Hnd; [done|].
  cbn [foldl].
  pose proof (rename_entry_distinct (fields, ok) entry Hnd) as Hone.
  destruct (rename_entry (fields, ok) entry) as [fields1 ok1].
  by apply IH.
Qed.

Lemma plain_keeps_distinct : keeps_distinct (H:=memory_host plain).
Proof.
  split_and!.
  - intros g r_path prefix sampled Hs _.
    change (band_sampler (λ _, Some 1%nat) g r_path prefix = Returns sampled)
      in Hs.
    unfold band_sampler in Hs. case_bool_decide; [|done].
    by injection Hs as <-.
  - intros g rename_map Hg.
    change (NoDup (let '(l', ok) := apply_rename g rename_map in
                   (l', Returns ok)).1).
    pose proof (apply_rename_distinct g rename_map Hg) as Hnd.
    by destruct (apply_rename g rename_map).
  - intros g Hg. by split_and!.
Qed.

End DoubleFacts.

(** ** Writing the outputs *)

Section OutputFacts.

Import Pipeline Output.

Context `{W : Writer}.

Lemma eqb_empty_false (s : string) : s ≠ "" → String.eqb s "" = false.
Proof. intros Hs. by destruct (String.eqb_spec s ""). Qed.

Lemma write_gpkg_attempt grid out_gpkg :
  out_gpkg ≠ "" → WriteVector out_gpkg "GPKG" ∈ write_gpkg grid out_gpkg.
Proof.
  intros Hne. unfold write_gpkg. rewrite eqb_empty_false by done.
  destruct (writeAsVectorFormat _ _ _); by left.
Qed.

Lemma write_csv_attempt grid out_csv :
  out_csv ≠ "" → WriteVector out_csv "CSV" ∈ write_csv grid out_csv.
Proof.
  intros Hne. unfold write_csv. rewrite eqb_empty_false by done.
  destruct (writeAsVectorFormat _ _ _); by left.
Qed.

(** Once the two output directories are there, the run returns the two
    resolved paths whatever the writers do, and it attempts both writes:
    neither a failed GeoPackage write nor a failed CSV write keeps the other
    from being tried.  A path that was given is returned as given. *)
Theorem outputs_written_independently polygon grid given_gpkg given_csv :
  let out_gpkg := resolve_output given_gpkg "raster_values.gpkg" polygon in
  let out_csv := resolve_output given_csv "raster_values.csv" polygon in
  makedirs (path_dirname out_gpkg) = Returns tt →
  makedirs (path_dirname out_csv) = Returns tt →
  ∃ log0,
    write_outputs polygon grid given_gpkg given_csv
    = Written out_gpkg out_csv log0 ∧
    (out_gpkg ≠ "" → WriteVector out_gpkg "GPKG" ∈ log0) ∧
    (out_csv ≠ "" → WriteVector out_csv "CSV" ∈ log0) ∧
    (given_gpkg ≠ "" → out_gpkg = given_gpkg) ∧
    (given_csv ≠ "" → out_csv = given_csv).
Proof.
  intros out_gpkg out_csv Hg Hc. unfold write_outputs.
  fold out_gpkg out_csv. rewrite Hg, Hc. eexists. split; [reflexivity|].
  split_and!.
  - intros Hne. apply elem_of_app. right. apply elem_of_app. right.
    apply elem_of_app. left. by apply write_gpkg_attempt.
  - intros Hne. apply elem_of_app. right. apply elem_of_app. right.
    apply elem_of_app. right. apply elem_of_app. left.
    by apply write_csv_attempt.
  - intros Hne. unfold out_gpkg, resolve_output.
    by rewrite (eqb_empty_false given_gpkg).
  - intros Hne. unfold out_csv, resolve_output.
    by rewrite (eqb_empty_false given_csv).
Qed.

(** The output directories are created before anything is written and
    outside any handler: when one of them cannot be created the run ends
    with that exception and neither file has been written. *)
Theorem directory_failure_writes_nothing polygon grid given_gpkg given_csv :
  let out_gpkg := resolve_output given_gpkg "raster_values.gpkg" polygon in
  let out_csv := resolve_output given_csv "raster_values.csv" polygon in
  (∃ e, makedirs (path_dirname out_gpkg) = Raises e) ∨
  (∃ e, makedirs (path_dirname out_csv) = Raises e) →
  ∃ log0 exn,
    write_outputs polygon grid given_gpkg given_csv = WriteCrash log0 exn ∧
    ∀ path format, WriteVector path format ∉ log0.
Proof.
  intros out_gpkg out_csv Hfail. unfold write_outputs. fold out_gpkg out_csv.
  assert (∀ l path format,
            Forall (λ ev, match ev with WriteVector _ _ => False | _ => True end) l →
            WriteVector path format ∉ l) as Hno.
  { intros l path format Hall Hin. rewrite Forall_forall in Hall.
    by apply (Hall _ Hin). }
  destruct (makedirs (path_dirname out_gpkg)) as [[]|e] eqn:Hg.
  - destruct Hfail as [[e ?]|[e He]]; [done|]. rewrite He.
    eexists _, _. split; [reflexivity|]. intros path format.
    apply Hno. by repeat constructor.
  - eexists _, _. split; [reflexivity|]. intros path format.
    apply Hno. by repeat constructor.
Qed.

(** The GeoPackage is loaded into the project when a file is there at its
    path after the writes, whether or not this run wrote it: after a failed
    write, a file that was already there is loaded. *)
Theorem stale_geopackage_is_loaded polygon grid given_gpkg given_csv e :
  let out_gpkg := resolve_output given_gpkg "raster_values.gpkg" polygon in
  let out_csv := resolve_output given_csv "raster_values.csv" polygon in
  makedirs (path_dirname out_gpkg) = Returns tt →
  makedirs (path_dirname out_csv) = Returns tt →
  out_gpkg ≠ "" →
  writeAsVectorFormat grid out_gpkg "GPKG" = Raises e →
  exists_after out_gpkg = true →
  loads_as_layer out_gpkg = true →
  ∃ log0,
    write_outputs polygon grid given_gpkg given_csv
    = Written out_gpkg out_csv log0 ∧
    WWarning ("Failed to write GeoPackage: " +:+ e) ∈ log0 ∧
    AddMapLayer out_gpkg ∈ log0.
Proof.
  intros out_gpkg out_csv Hg Hc Hne Hw Hex Hload. unfold write_outputs.
  fold out_gpkg out_csv. rewrite Hg, Hc. eexists. split; [reflexivity|].
  unfold write_gpkg, load_gpkg.
  rewrite (eqb_empty_false out_gpkg), Hw, Hex, Hload by done. cbn [negb andb].
  split.
  - apply elem_of_app. right. apply elem_of_app. right.
    apply elem_of_app. left. right. by left.
  - apply elem_of_app. right. apply elem_of_app. right.
    apply elem_of_app. right. apply elem_of_app. right.
    apply elem_of_app. left. by left.
Qed.

End OutputFacts.

(** ** The further properties on the in-memory hosts *)

Section MoreRuns.

Import Names Suffix Geometry Pipeline Views Output Doubles MoreDoubles.

(** Two rasters that both clip. *)
Lemma clip_loop_survivors_witness :
  (clip_loop (H:=memory_host plain) ["fid"] 0
     ["/data/ndvi.tif"; "/data/dem.tif"] ([], [])).1
  = [] ++ omap (clip_output (H:=memory_host plain) ["fid"])
            ["/data/ndvi.tif"; "/data/dem.tif"].
Proof.
  apply (clip_loop_survivors (H:=memory_host plain) ["fid"]
           ["/data/ndvi.tif"; "/data/dem.tif"] (λ j, eq_refl)).
Defined.

(** A cancellation seen at the second poll of the clipping loop. *)
Lemma cancellation_truncates_witness :
  let host := tuned_host plain (PyFloat.literal 1) (λ i, Nat.eqb i 1) (λ _, false) in
  clip_loop (H:=host) ["fid"] 0
    ["/data/ndvi.tif"; "/data/dem.tif"; "/data/slope.tif"] ([], [])
  = clip_loop (H:=host) ["fid"] 0 ["/data/ndvi.tif"] ([], []).
Proof.
  intros host.
  apply (proj1 (cancellation_truncates (H:=host) 1 ["fid"])
           ["/data/ndvi.tif"; "/data/dem.tif"; "/data/slope.tif"] 0%nat
           ([], [])).
  - intros j Hj. destruct j; [reflexivity|lia].
  - reflexivity.
Defined.


(** Two rasters of one band each, sampled into the columns of a point
    grid. *)
Lemma column_names_stay_distinct_witness :
  NoDup (sample_loop (H:=memory_host plain) 0
           ["/home/user/temp_clip/a_clip.tif";
            "/home/user/temp_clip/tmp0__1_clip.tif"]
           (loop_state plain ["id"; "left"; "top"; "right"; "bottom"] ∅)).(grid).
Proof.
  apply (column_names_stay_distinct (H:=memory_host plain)
           ["/home/user/temp_clip/a_clip.tif";
            "/home/user/temp_clip/tmp0__1_clip.tif"] 0
           (loop_state plain ["id"; "left"; "top"; "right"; "bottom"] ∅)
           plain_keeps_distinct).
  - by apply (bool_decide_unpack
                (NoDup ["id"; "left"; "top"; "right"; "bottom"])).
  - split; [constructor|]. intros x Hx. by apply elem_of_nil in Hx.
Defined.

(** Three rasters none of which the sampler can read. *)
Lemma all_samplings_fail_witness :
  grid (sample_loop (H:=memory_host unreadable) 0
          ["/home/user/temp_clip/a_clip.tif";
           "/home/user/temp_clip/b_clip.tif";
           "/home/user/temp_clip/c_clip.tif"]
          (loop_state unreadable ["id"] ∅))
  = ["id"].
Proof.
  apply (all_samplings_fail (H:=memory_host unreadable)
           ["/home/user/temp_clip/a_clip.tif";
            "/home/user/temp_clip/b_clip.tif";
            "/home/user/temp_clip/c_clip.tif"] ["id"]
           (λ j r, ex_intro _ "cannot open raster" eq_refl) 0%nat
           (loop_state unreadable ["id"] ∅) eq_refl).
Defined.

(** Two three-band rasters of the same name. *)
Lemma requested_names_distinct_witness :
  NoDup (requested_names
           (log (sample_loop (H:=memory_host three_bands) 0
                   ["/home/user/temp_clip/rgb_clip.tif";
                    "/home/user/temp_clip/rgb_clip.tif"]
                   (loop_state three_bands ["id"] ∅)))).
Proof.
  apply (proj2 (requested_names_distinct (H:=memory_host three_bands)
                  (parameters three_bands [] 0))
           ["/home/user/temp_clip/rgb_clip.tif";
            "/home/user/temp_clip/rgb_clip.tif"] 0%nat
           (loop_state three_bands ["id"] ∅)).
  - constructor.
  - intros x Hx. by apply elem_of_nil in Hx.
Defined.

(** Default paths, with a GeoPackage that cannot be written. *)
Lemma outputs_written_independently_witness :
  ∃ log0,
    write_outputs (W:=memory_writer [] ["/data/raster_values.gpkg"] [])
      ["fid"] ["id"; "ndvi"] "" ""
    = Written "/data/raster_values.gpkg" "/data/raster_values.csv" log0 ∧
    WriteVector "/data/raster_values.csv" "CSV" ∈ log0.
Proof.
  destruct (outputs_written_independently
              (W:=memory_writer [] ["/data/raster_values.gpkg"] [])
              ["fid"] ["id"; "ndvi"] "" "" eq_refl eq_refl)
    as (log0 & E & _ & Hcsv & _).
  exists log0. split; [exact E|]. apply Hcsv. discriminate.
Defined.

(** An output directory that cannot be created. *)
Lemma directory_failure_writes_nothing_witness :
  ∃ log0 exn,
    write_outputs (W:=memory_writer ["/data"] [] []) ["fid"] ["id"; "ndvi"]
      "" ""
    = WriteCrash log0 exn.
Proof.
  destruct (directory_failure_writes_nothing
              (W:=memory_writer ["/data"] [] []) ["fid"] ["id"; "ndvi"] "" ""
              (or_introl (ex_intro _ "FileNotFoundError" eq_refl)))
    as (log0 & exn & E & _).
  exists log0, exn. exact E.
Defined.

(** A GeoPackage of an earlier run at the output path, and a write that
    fails. *)
Lemma stale_geopackage_is_loaded_witness :
  ∃ log0,
    write_outputs
      (W:=memory_writer [] ["/out/values.gpkg"] ["/out/values.gpkg"])
      ["fid"] ["id"; "ndvi"] "/out/values.gpkg" "/out/values.csv"
    = Written "/out/values.gpkg" "/out/values.csv" log0 ∧
    AddMapLayer "/out/values.gpkg" ∈ log0.
Proof.
  destruct (stale_geopackage_is_loaded
              (W:=memory_writer [] ["/out/values.gpkg"] ["/out/values.gpkg"])
              ["fid"] ["id"; "ndvi"] "/out/values.gpkg" "/out/values.csv"
              "write error" eq_refl eq_refl)
    as (log0 & E & _ & Hload); [discriminate|reflexivity..|].
  exists log0. split; [exact E|exact Hload].
Defined.

End MoreRuns.
